(** * gotestsum: rerunning failed tests (cmd/rerunfails.go)

    A shallow embedding of [cmd/rerunfails.go]: the [-test.run] flag
    builder, the failure recorder, the outcome classifier [hasErrors], the
    rerun loop [rerunFailed] and the report writer, with the collaborators
    the file calls ([testjson], [coverprofile], [cover], [os], the [go test]
    subprocess) either taken as the fields of the class [Collaborators] or
    modelled from the specification where a statement is about them.

    Go strings are byte sequences: they are Rocq [string]s (lists of
    [ascii]).  Go [error] values are [option error] ([None] is [nil]).
    Effects are threaded explicitly: the outside world (subprocesses and
    files) as a state [W], the shared [*testjson.Execution] as a value
    passed along, the downstream event handler as a state [H]. *)

From Stdlib Require Import Ascii String ZArith.
From stdpp Require Import gmap strings list fin_maps pretty sorting.

(* ===================================================================== *)
(** ** Part I: definitions *)
(* ===================================================================== *)

(** *** Strings: [regexp.QuoteMeta], [strings.Split] *)

Module GoStrings.

(** The bytes of [`\.+*?()|[]{}^$`], the set [regexp.special] tests
    (Go standard library, regexp/regexp.go).  The space is not one of
    them. *)
Definition specialBytes : list ascii :=
  ["\"; "."; "+"; "*"; "?"; "("; ")"; "|"; "["; "]"; "{"; "}"; "^"; "$"]%char.

Definition special (b : ascii) : bool :=
  bool_decide (b ∈ specialBytes).

(** [regexp.QuoteMeta]: every special byte gets a backslash in front of
    it, every other byte is copied. *)
Fixpoint QuoteMeta (s : string) : string :=
  match s with
  | EmptyString => EmptyString
  | String b s' =>
      if special b then String "\"%char (String b (QuoteMeta s'))
      else String b (QuoteMeta s')
  end.

(** [strings.Split(s, sep)] for a one-byte separator: the substrings
    between the separators, [[s]] when [s] holds none (so the result is
    never empty). *)
Fixpoint Split (s : string) (sep : ascii) : list string :=
  match s with
  | EmptyString => [EmptyString]
  | String b s' =>
      if Ascii.eqb b sep then EmptyString :: Split s' sep
      else match Split s' sep with
           | p :: ps => String b p :: ps
           | [] => [String b EmptyString]
           end
  end.

(** [strings.Contains(s, sep)] for a one-byte separator. *)
Fixpoint Contains (s : string) (sep : ascii) : bool :=
  match s with
  | EmptyString => false
  | String b s' => Ascii.eqb b sep || Contains s' sep
  end.

(** A pattern of the literal fragment of the regexp syntax: an ordinary
    byte matches itself, a backslash followed by a special byte matches
    that byte, and a bare special byte is not a literal.  [literal_match p t]
    says that [p] lies in this fragment and matches exactly the text [t]. *)
Fixpoint literal_match (p t : string) : bool :=
  match p with
  | EmptyString => match t with EmptyString => true | _ => false end
  | String c p' =>
      if Ascii.eqb c "\"%char then
        match p' with
        | String d p'' =>
            match t with
            | String e t' => special d && Ascii.eqb d e && literal_match p'' t'
            | EmptyString => false
            end
        | EmptyString => false
        end
      else if special c then false
      else match t with
           | String e t' => Ascii.eqb c e && literal_match p' t'
           | EmptyString => false
           end
  end.

End GoStrings.

(** *** Errors *)

(** A Go [error] value, reduced to what this file reads from one: its text
    ([err.Error()], what [%v] prints).  [nil] is [None] of [option error]. *)
Record error := Err { Error : string }.

(** [fmt.Errorf] with the format already filled in. *)
Definition Errorf (msg : string) : error := Err msg.

(** The result of a call that may dereference a nil interface: Go panics
    there, and nothing of the caller's state is left to speak of. *)
Inductive outcome (A : Type) : Type :=
  | Done (a : A)
  | Panic.
Arguments Done {A} a.
Arguments Panic {A}.

(** *** [testjson]: names, cases, events, the execution *)

Module testjson.

(** [testjson.TestName] is a string type. *)
Definition TestName := string.

(** Modelled from the spec: [TestName.IsSubTest] is declared in package
    testjson, outside the given sources.  The spec: a name is a subtest iff
    it contains the separator [/]. *)
Definition IsSubTest (n : TestName) : bool := GoStrings.Contains n "/"%char.

(** Modelled from the spec: [TestName.Name] (package testjson) is the name
    as a plain string. *)
Definition Name (n : TestName) : string := n.

(** Modelled from the spec: [testjson.Action] is a string type,
    [ActionFail] the action "fail" and [ActionPass] the action "pass". *)
Definition Action := string.
Definition ActionFail : Action := "fail".
Definition ActionPass : Action := "pass".

(** Modelled from the spec: [testjson.TestCase], identified by its package
    and test name.  The zero value [TestCase{}] has both empty. *)
Record TestCase := mkTestCase { tcPackage : string; tcTest : TestName }.

Definition zeroTestCase : TestCase := mkTestCase "" "".

#[global] Instance TestCase_eq_dec : EqDecision TestCase.
Proof. solve_decision. Defined.

(** Modelled from the spec: [testjson.TestEvent], one decoded line of the
    [go test -json] stream, with the fields this file reads. *)
Record TestEvent := mkTestEvent {
  evAction : Action;
  evPackage : string;
  evTest : string
}.

(** Modelled from the spec: [TestEvent.PackageEvent], a package-level event
    is one that names no test. *)
Definition PackageEvent (e : TestEvent) : bool := bool_decide (evTest e = "").

(** Modelled from the spec: [testjson.Package], the view of one package.
    [Failed] and [Passed] are the fields [writeRerunFailsReport] reads. *)
Record Package := mkPackage {
  Failed : list TestCase;
  Passed : list TestCase
}.

Definition emptyPackage : Package := mkPackage [] [].

(** Modelled from the spec: [Package.LastFailedByName], the last-failed case
    of that test name in the package, the zero case when there is none. *)
Definition LastFailedByName (p : Package) (name : string) : TestCase :=
  default zeroTestCase
    (last (filter (λ tc, Name (tcTest tc) = name) (Failed p))).

(** Modelled from the spec: [testjson.Execution], the aggregate of a run,
    queryable by package, with its protocol-level errors and whether a panic
    is suspected. *)
Record Execution := mkExecution {
  packages : gmap string Package;
  errors : list string;
  panicked : bool
}.

(** Modelled from the spec: [Execution.Errors] and [Execution.HasPanic],
    the recorded protocol-level errors and the suspicion of a panic. *)
Definition Errors (e : Execution) : list string := errors e.
Definition HasPanic (e : Execution) : bool := panicked e.

(** Modelled from the spec: [Execution.Package], the view of the package of
    that name; a package never seen reads as an empty one. *)
Definition PackageOf (e : Execution) (name : string) : Package :=
  default emptyPackage (packages e !! name).

(** Modelled from the spec: [Execution.Failed], the failing cases of all
    packages, the packages in the order of their names. *)
Definition FailedOf (e : Execution) : list TestCase :=
  mbind (λ name, Failed (PackageOf e name))
        (merge_sort String.le (map fst (map_to_list (packages e)))).

(** Modelled from the spec: [testjson.FilterFailedUnique], the unique-leaf
    policy: the failing cases without repetition of a (package, test). *)
Definition FilterFailedUnique (tcs : list TestCase) : list TestCase :=
  remove_dups tcs.

End testjson.

Import testjson.

(** *** Options and rerun arguments *)

(** The fields of [options] this file reads ([opts.stdout] only receives the
    summary printed before each round, which is not modelled). *)
Record options := mkOptions {
  args : list string;
  rerunFailsMaxAttempts : Z;
  rerunFailsRunRootCases : bool;
  rerunFailsReportFile : string
}.

Record rerunOpts := mkRerunOpts {
  runFlag : string;
  pkg : string;
  coverprofileFlag : string
}.

Definition Args (o : rerunOpts) : list string :=
  let result : list string := [] in
  let result := if bool_decide (runFlag o ≠ "") then result ++ [runFlag o] else result in
  let result := if bool_decide (pkg o ≠ "") then result ++ [pkg o] else result in
  let result :=
    if bool_decide (coverprofileFlag o ≠ "") then result ++ [coverprofileFlag o]
    else result in
  result.

Definition withCoverprofile (o : rerunOpts) (coverprofile : string) : rerunOpts :=
  mkRerunOpts (runFlag o) (pkg o) ("-coverprofile=" +:+ coverprofile).

(** *** The run-flag builder *)

(** The body of the loop of [goTestRunFlagForTestCase] over [parts]: [i] is
    the index of the next part, [sb] the contents of the [strings.Builder]. *)
Fixpoint writeParts (i : nat) (parts : list string) (sb : string) : string :=
  match parts with
  | [] => sb
  | p :: ps =>
      let sb := if bool_decide (0 < i)%nat then sb +:+ "/" else sb in
      let sb := sb +:+ "^" in
      let sb := sb +:+ GoStrings.QuoteMeta p in
      let sb := sb +:+ "$" in
      writeParts (S i) ps sb
  end.

Definition goTestRunFlagForTestCase (test : testjson.TestName) : string :=
  if testjson.IsSubTest test then
    let parts := GoStrings.Split test "/"%char in
    writeParts 0 parts "-test.run="
  else "-test.run=^" +:+ GoStrings.QuoteMeta (testjson.Name test) +:+ "$".

(** The selection pattern as the specification words it: every path segment
    regex-escaped and anchored on its own, the segments joined by [/]. *)
Definition anchored (seg : string) : string :=
  "^" +:+ GoStrings.QuoteMeta seg +:+ "$".

Definition anchoredPattern (segs : list string) : string :=
  String.concat "/" (map anchored segs).

Definition newRerunOptsFromTestCase (tc : TestCase) : rerunOpts :=
  mkRerunOpts (goTestRunFlagForTestCase (tcTest tc)) (tcPackage tc) "".

Definition testCaseFilter := list TestCase → list TestCase.

Definition rerunFailsFilter (o : options) : testCaseFilter :=
  if rerunFailsRunRootCases o then
    λ tcs, filter (λ tc, IsSubTest (tcTest tc) = false) tcs
  else FilterFailedUnique.

(** *** Coverage profiles *)

Module cover.

(** Modelled from the spec: a coverage block, one source span with its
    statement count and execution count, as the spec's data model lists
    it. *)
Record Block := mkBlock {
  file : string;
  startLine : Z;
  startCol : Z;
  endLine : Z;
  endCol : Z;
  numStmt : Z;
  count : Z
}.

(** Modelled from the spec: a coverage profile is an ordered sequence of
    blocks ([cover.Profile] of golang.org/x/tools). *)
Definition Profile := list Block.

End cover.

Import cover.

Module coverprofile.

(** The key of a block: [(file, startLine, startCol, endLine, endCol)]. *)
Definition key : Type := string * Z * Z * Z * Z.

Definition blockKey (b : Block) : key :=
  (file b, startLine b, startCol b, endLine b, endCol b).

Definition addCount (a : Block) (n : Z) : Block :=
  mkBlock (file a) (startLine a) (startCol a) (endLine a) (endCol a)
          (numStmt a) (count a + n).

(** Modelled from the spec: one block merged into the blocks seen so far.
    A block whose key is already there adds its count to that block's; a
    block with a new key is taken as it is. *)
Fixpoint addBlock (b : Block) (acc : list Block) : list Block :=
  match acc with
  | [] => [b]
  | a :: acc' =>
      if decide (blockKey a = blockKey b) then addCount a (count b) :: acc'
      else a :: addBlock b acc'
  end.

(** Modelled from the spec: the merge of a sequence of blocks, the union of
    the blocks by key with the counts of equal keys summed. *)
Definition mergeBlocks (bs : list Block) : list Block :=
  foldl (λ acc b, addBlock b acc) [] bs.

(** Modelled from the spec: [coverprofile.Combine] (package
    internal/coverprofile, outside the given sources) on a table of coverage
    files: the original profile and the partial profiles are merged and the
    result is written back to the original path, replacing the file.  An
    original file that cannot be read is an error and nothing is written. *)
Definition Combine (main : string) (others : list Profile)
    (files : gmap string (list Profile)) : option error * gmap string (list Profile) :=
  match files !! main with
  | None => (Some (Errorf ("open " +:+ main +:+ ": no such file")), files)
  | Some mainProfiles =>
      (None, <[main := [mergeBlocks (concat (mainProfiles ++ others))]]> files)
  end.

(** The execution count recorded for a key in a sequence of blocks: the sum
    over the blocks with that key. *)
Definition countOf (k : key) (bs : list Block) : Z :=
  foldr (λ b n, (if decide (blockKey b = k) then count b else 0) + n)%Z 0%Z bs.

End coverprofile.

(** *** The collaborators *)

(** A started [go test] process as [startGoTestFn] returns it: the events
    the scanner will decode from its output, the error (if any) of reading
    that output to the end, and what [cmd.Wait()] returns. *)
Record goTestProc := mkProc {
  stdout : list TestEvent;
  streamErr : option error;
  wait : option error
}.

(** What [rerunfails.go] calls and does not define, over a state [W] of the
    outside world (subprocesses and files). *)
Class Collaborators (W : Type) := {
  (** the exit status [ExitCodeWithDefault] reads off a non-nil error (the
      helper is in package cmd, outside the given sources) *)
  ExitCode : error → Z;
  (** [execAdd runID exec event]: what the scanner makes of the shared
      execution when it decodes [event] (package testjson) *)
  execAdd : Z → Execution → TestEvent → Execution;
  (** [startGoTestFn(ctx, "", args)] *)
  startGoTestFn : list string → W → (error + goTestProc) * W;
  (** [goTestCmdArgs] (package cmd) *)
  goTestCmdArgs : options → rerunOpts → list string;
  (** [coverprofile.ParseCoverProfile] *)
  ParseCoverProfile : list string → bool * string;
  (** [cover.ParseProfiles], [os.Remove], [coverprofile.Combine] *)
  ParseProfiles : string → W → (error + list Profile) * W;
  Remove : string → W → option error * W;
  Combine : string → list Profile → W → option error * W;
  (** [os.Create] and a write to the file created (what [fmt.Fprintf]
      does with the handle; its error is ignored by the caller) *)
  Create : string → W → option error * W;
  WriteString : string → string → W → W
}.

(** *** The outcome classifier and the failure recorder *)

Section Rerun.

(** [W] is the state of the outside world, [H] the state of the event
    handler the caller passed in [scanConfig.Handler]. *)
Context {W H : Type} `{!Collaborators W}.

(** Modelled from the spec: [ExitCodeWithDefault], the normalized exit code
    of a completion error, [nil] being 0. *)
Definition ExitCodeWithDefault (err : option error) : Z :=
  match err with
  | None => 0
  | Some e => ExitCode e
  end.

(** [%v] of an error value. *)
Definition fmtErr (err : option error) : string :=
  match err with
  | None => "<nil>"
  | Some e => Error e
  end.

Definition hasErrors (err : option error) (exec : Execution) : option error :=
  if bool_decide (0 < length (Errors exec))%nat then
    Some (Errorf "rerun aborted because previous run had errors")
  else if bool_decide (ExitCodeWithDefault err > 1)%Z then
    Some (Errorf ("unexpected go test exit code: " +:+ fmtErr err))
  else if HasPanic exec then
    Some (Errorf "rerun aborted because previous run had a suspected panic and some test may not have run")
  else None.

(** [testjson.EventHandler], the method [Event] of the interface: the
    handler's own state is the shared store [H]. *)
Definition EventHandlerT : Type := TestEvent → Execution → H → option error * H.

(** [failureRecorder]: the embedded [EventHandler] is [None] when the
    interface value is nil, as [newFailureRecorderFromExecution] leaves it. *)
Record failureRecorder := mkRecorder {
  EventHandler : option EventHandlerT;
  failures : list TestCase;
  lastErr : option error
}.

Definition newFailureRecorder (handler : EventHandlerT) : failureRecorder :=
  mkRecorder (Some handler) [] None.

Definition newFailureRecorderFromExecution (exec : Execution) : failureRecorder :=
  mkRecorder None (FailedOf exec) None.

(** [(r *failureRecorder) Event]: the recorder after the call, the error the
    wrapped handler returned and the handler's new state; a panic when the
    embedded handler is nil. *)
Definition Event (r : failureRecorder) (event : TestEvent) (execution : Execution)
    (h : H) : outcome (option error * (failureRecorder * H)) :=
  let r :=
    if negb (PackageEvent event) && bool_decide (evAction event = ActionFail) then
      let pkg := PackageOf execution (evPackage event) in
      let tc := LastFailedByName pkg (evTest event) in
      mkRecorder (EventHandler r) (failures r ++ [tc]) (lastErr r)
    else r in
  match EventHandler r with
  | None => Panic
  | Some handler =>
      let '(err, h') := handler event execution h in
      Done (err, (r, h'))
  end.

Definition count (r : failureRecorder) : nat := length (failures r).

Definition setLastErr (r : failureRecorder) (err : option error) : failureRecorder :=
  mkRecorder (EventHandler r) (failures r) err.

(** *** The event scanner *)

(** The result of a scan: the error it returned, the execution and the
    handler as it left them, and the events it handed to the handler, each
    with the execution the handler was shown (kept for the statements
    below; the Go function does not return them). *)
Record scanResult (S : Type) := mkScanResult {
  scErr : option error;
  scExec : Execution;
  scHandler : S;
  scDelivered : list (TestEvent * Execution)
}.
Arguments mkScanResult {S}.
Arguments scErr {S}.
Arguments scExec {S}.
Arguments scHandler {S}.
Arguments scDelivered {S}.

(** Modelled from the spec: [testjson.ScanTestOutput].  The scanner decodes
    the events of the stream in order; each one is added to the shared
    execution and then handed to the handler, once.  An error of the
    handler ends the scan with that error; a stream that cannot be read to
    its end ([streamErr]) is an error after the events read so far. *)
Fixpoint scanEvents {S : Type}
    (handle : S → TestEvent → Execution → outcome (option error * S))
    (runID : Z) (events : list TestEvent) (streamErr : option error)
    (exec : Execution) (s : S) : outcome (scanResult S) :=
  match events with
  | [] => Done (mkScanResult streamErr exec s [])
  | event :: events' =>
      let exec' := execAdd runID exec event in
      match handle s event exec' with
      | Panic => Panic
      | Done (Some err, s') => Done (mkScanResult (Some err) exec' s' [(event, exec')])
      | Done (None, s') =>
          match scanEvents handle runID events' streamErr exec' s' with
          | Panic => Panic
          | Done r =>
              Done (mkScanResult (scErr r) (scExec r) (scHandler r)
                                 ((event, exec') :: scDelivered r))
          end
      end
  end.

(** The recorder as the handler of a scan: its state is the recorder and
    the store of the handler it wraps. *)
Definition recorderHandle (s : failureRecorder * H) (event : TestEvent)
    (execution : Execution) : outcome (option error * (failureRecorder * H)) :=
  Event (fst s) event execution (snd s).

(** *** The rerun loop *)

Definition isCoverprofile (opts : options) : bool :=
  fst (ParseCoverProfile (args opts)).
Definition mainProfilePath (opts : options) : string :=
  snd (ParseCoverProfile (args opts)).

(** What [rerunFailed] holds besides the recorders: the outside world, the
    shared execution ([scanConfig.Execution]), the store of the caller's
    handler and [rerunProfiles]. *)
Record state := mkState {
  stWorld : W;
  stExec : Execution;
  stHandler : H;
  stProfiles : list Profile
}.

(** Where a run of [rerunFailed] ends: at one of its [return] statements
    ([AtEnd] is the final [return rec.lastErr]), in a panic, or with the
    fuel of the model used up. *)
Inductive exit :=
  | AtStart | AtScan | AtParse | AtRemove | AtClassifier | AtCombine | AtEnd
  | Panicked | OutOfFuel.

#[global] Instance exit_eq_dec : EqDecision exit.
Proof. solve_decision. Defined.

(** The record of one rerun invocation (kept for the statements below). *)
Record invocationLog := mkInvocationLog {
  ilAttempt : Z;
  ilIndex : nat;
  ilCase : TestCase;
  ilArgs : list string;
  ilDelivered : list (TestEvent * Execution);
  ilExit : option error
}.

(** The effect of one pass through the body of the inner loop: [crStop] is
    [Some] when the body returns from [rerunFailed]. *)
Record caseResult := mkCaseResult {
  crStop : option (exit * option error);
  crRec : failureRecorder;
  crState : state;
  crLog : invocationLog
}.

(** The body of the inner loop, for the case [tc] at index [i] of round
    [attempts]. *)
Definition rerunOne (opts : options) (attempts : Z) (i : nat) (tc : TestCase)
    (nextRec : failureRecorder) (st : state) : caseResult :=
  let rerunOpts := newRerunOptsFromTestCase tc in
  let rerunProfilePath :=
    if isCoverprofile opts
    then mainProfilePath opts +:+ "." +:+ pretty attempts +:+ "." +:+ pretty i
    else "" in
  let rerunOpts :=
    if isCoverprofile opts then withCoverprofile rerunOpts rerunProfilePath
    else rerunOpts in
  let cmdArgs := goTestCmdArgs opts rerunOpts in
  let log := mkInvocationLog attempts i tc cmdArgs in
  match startGoTestFn cmdArgs (stWorld st) with
  | (inl err, w) =>
      mkCaseResult (Some (AtStart, Some err)) nextRec
        (mkState w (stExec st) (stHandler st) (stProfiles st)) (log [] None)
  | (inr goTestProc, w) =>
      match scanEvents recorderHandle (attempts + 1) (stdout goTestProc)
              (streamErr goTestProc) (stExec st) (nextRec, stHandler st) with
      | Panic =>
          mkCaseResult (Some (Panicked, None)) nextRec
            (mkState w (stExec st) (stHandler st) (stProfiles st)) (log [] None)
      | Done sc =>
          let nextRec := fst (scHandler sc) in
          let h := snd (scHandler sc) in
          let exec := scExec sc in
          match scErr sc with
          | Some err =>
              mkCaseResult (Some (AtScan, Some err)) nextRec
                (mkState w exec h (stProfiles st)) (log (scDelivered sc) None)
          | None =>
              let exitErr := wait goTestProc in
              let nextRec :=
                match exitErr with
                | Some _ => setLastErr nextRec exitErr
                | None => nextRec
                end in
              let log := log (scDelivered sc) exitErr in
              let classify (w : W) (rerunProfiles : list Profile) :=
                match hasErrors exitErr exec with
                | Some err =>
                    mkCaseResult (Some (AtClassifier, Some err)) nextRec
                      (mkState w exec h rerunProfiles) log
                | None =>
                    mkCaseResult None nextRec (mkState w exec h rerunProfiles) log
                end in
              if isCoverprofile opts then
                match ParseProfiles rerunProfilePath w with
                | (inl err, w) =>
                    mkCaseResult
                      (Some (AtParse,
                             Some (Errorf ("failed to parse coverprofile "
                                           +:+ rerunProfilePath +:+ ": " +:+ Error err))))
                      nextRec (mkState w exec h (stProfiles st)) log
                | (inr rerunProfile, w) =>
                    let rerunProfiles := stProfiles st ++ rerunProfile in
                    match Remove rerunProfilePath w with
                    | (Some err, w) =>
                        mkCaseResult
                          (Some (AtRemove,
                                 Some (Errorf ("failed to remove coverprofile "
                                               +:+ rerunProfilePath
                                               +:+ " after combined with the main profile: "
                                               +:+ Error err))))
                          nextRec (mkState w exec h rerunProfiles) log
                    | (None, w) => classify w rerunProfiles
                    end
                end
              else classify w (stProfiles st)
          end
      end
  end.

(** The inner loop, [for i, tc := range tcFilter(rec.failures)], from index
    [i] on: whether the function returned, the recorder and state at that
    point, and the invocations made. *)
Record casesResult := mkCasesResult {
  csStop : option (exit * option error);
  csRec : failureRecorder;
  csState : state;
  csLogs : list invocationLog
}.

Fixpoint rerunCases (opts : options) (attempts : Z) (i : nat) (tcs : list TestCase)
    (nextRec : failureRecorder) (st : state) : casesResult :=
  match tcs with
  | [] => mkCasesResult None nextRec st []
  | tc :: tcs' =>
      let r := rerunOne opts attempts i tc nextRec st in
      match crStop r with
      | Some stop => mkCasesResult (Some stop) (crRec r) (crState r) [crLog r]
      | None =>
          let rs := rerunCases opts attempts (S i) tcs' (crRec r) (crState r) in
          mkCasesResult (csStop rs) (csRec rs) (csState rs) (crLog r :: csLogs rs)
      end
  end.

(** The record of one round of the outer loop (kept for the statements
    below): the recorder [rec] that drove it, the cases the filter selected,
    the invocations made, and [nextRec] as the round left it. *)
Record roundLog := mkRoundLog {
  rlAttempt : Z;
  rlRec : failureRecorder;
  rlSelected : list TestCase;
  rlInvocations : list invocationLog;
  rlNextRec : failureRecorder
}.

(** The run of [rerunFailed]: the error it returns, the statement it
    returned at, the state it leaves behind, the last value of [rec], and
    the rounds it went through. *)
Record session := mkSession {
  sErr : option error;
  sExit : exit;
  sState : state;
  sRec : failureRecorder;
  sRounds : list roundLog
}.

(** The outer loop,
    [for attempts := 0; rec.count() > 0 && attempts < max; attempts++],
    from the test of its condition on.  [attempts] stays below
    [rerunFailsMaxAttempts], so the Go [int] never wraps.  [fuel] bounds the
    rounds of the model; [sExit] is [AtEnd] when the loop was left through
    its condition, and [sErr] is not yet set then. *)
Fixpoint rerunRounds (opts : options) (handler : EventHandlerT) (fuel : nat)
    (attempts : Z) (rec : failureRecorder) (st : state) : session :=
  if bool_decide (0 < count rec)%nat
     && bool_decide (attempts < rerunFailsMaxAttempts opts)%Z then
    match fuel with
    | O => mkSession None OutOfFuel st rec []
    | S fuel' =>
        let tcFilter := rerunFailsFilter opts in
        let nextRec := newFailureRecorder handler in
        let selected := tcFilter (failures rec) in
        let rs := rerunCases opts attempts 0 selected nextRec st in
        let round := mkRoundLog attempts rec selected (csLogs rs) (csRec rs) in
        match csStop rs with
        | Some (ex, err) => mkSession err ex (csState rs) rec [round]
        | None =>
            let s := rerunRounds opts handler fuel' (attempts + 1) (csRec rs) (csState rs) in
            mkSession (sErr s) (sExit s) (sState s) (sRec s) (round :: sRounds s)
        end
    end
  else mkSession None AtEnd st rec [].

(** [rerunFailed(ctx, opts, scanConfig)]: [handler] is [scanConfig.Handler]
    (a handler that is not nil) with its store [h], [exec] is
    [scanConfig.Execution], [w] the outside world.  The cancellation of
    [ctx] and the summary printed to [opts.stdout] before each round are
    not modelled. *)
Definition rerunFailed (opts : options) (handler : EventHandlerT)
    (exec : Execution) (h : H) (w : W) : session :=
  let rerunProfiles : list Profile := [] in
  let rec := newFailureRecorderFromExecution exec in
  let s := rerunRounds opts handler (Z.to_nat (rerunFailsMaxAttempts opts)) 0 rec
             (mkState w exec h rerunProfiles) in
  match sExit s with
  | AtEnd =>
      let st := sState s in
      if isCoverprofile opts then
        match Combine (mainProfilePath opts) (stProfiles st) (stWorld st) with
        | (Some err, w') =>
            mkSession
              (Some (Errorf ("failed to combine coverprofiles: " +:+ Error err)))
              AtCombine (mkState w' (stExec st) (stHandler st) (stProfiles st))
              (sRec s) (sRounds s)
        | (None, w') =>
            mkSession (lastErr (sRec s)) AtEnd
              (mkState w' (stExec st) (stHandler st) (stProfiles st))
              (sRec s) (sRounds s)
        end
      else mkSession (lastErr (sRec s)) AtEnd st (sRec s) (sRounds s)
  | _ => s
  end.

End Rerun.
Arguments mkScanResult {S}.
Arguments scErr {S}.
Arguments scExec {S}.
Arguments scHandler {S}.
Arguments scDelivered {S}.
Arguments EventHandlerT : clear implicits.
Arguments failureRecorder : clear implicits.
Arguments state : clear implicits.
Arguments caseResult : clear implicits.
Arguments casesResult : clear implicits.
Arguments roundLog : clear implicits.
Arguments session : clear implicits.

(** *** The report writer *)

(** [testCaseCounts]: the counters are Go [int]s, incremented once per
    element of a slice, so they stay far below the point where an [int]
    wraps. *)
Record testCaseCounts := mkCounts { total : Z; failed : Z }.

Definition newline : string := String "010"%char EmptyString.

Section Report.

Context {W : Type} `{!Collaborators W}.

(** The two inner loops: the runs of [failure.Test] among the failed and
    among the passed cases of its package. *)
Definition countFailed (failure : TestCase) (tcs : list TestCase)
    (counts : testCaseCounts) : testCaseCounts :=
  foldl (λ counts tc,
           if decide (tcTest tc = tcTest failure)
           then mkCounts (total counts + 1) (failed counts + 1)
           else counts) counts tcs.

Definition countPassed (failure : TestCase) (tcs : list TestCase)
    (counts : testCaseCounts) : testCaseCounts :=
  foldl (λ counts tc,
           if decide (tcTest tc = tcTest failure)
           then mkCounts (total counts + 1) (failed counts)
           else counts) counts tcs.

Definition reportName (failure : TestCase) : string :=
  tcPackage failure +:+ "." +:+ Name (tcTest failure).

(** One pass through the body of [for _, failure := range exec.Failed()],
    on the pair of [names] and [results]. *)
Definition reportStep (exec : Execution)
    (acc : list string * gmap string testCaseCounts) (failure : TestCase)
    : list string * gmap string testCaseCounts :=
  let name := reportName failure in
  match acc.2 !! name with
  | Some _ => acc
  | None =>
      let names := acc.1 ++ [name] in
      let pkg := PackageOf exec (tcPackage failure) in
      let counts := mkCounts 0 0 in
      let counts := countFailed failure (Failed pkg) counts in
      let counts := countPassed failure (Passed pkg) counts in
      (names, <[name := counts]> acc.2)
  end.

Definition reportTally (exec : Execution)
    : list string * gmap string testCaseCounts :=
  foldl (reportStep exec) ([], ∅) (FailedOf exec).

(** The rows of the report in the order they are written: the names
    sorted by [sort.Strings], each with [results[name]]. *)
Definition reportRows (exec : Execution) : list (string * testCaseCounts) :=
  let '(names, results) := reportTally exec in
  map (λ name, (name, default (mkCounts 0 0) (results !! name)))
      (merge_sort String.le names).

(** ["%s: %d runs, %d failures\n"]. *)
Definition reportLine (row : string * testCaseCounts) : string :=
  row.1 +:+ ": " +:+ pretty (total row.2) +:+ " runs, "
        +:+ pretty (failed row.2) +:+ " failures" +:+ newline.

Definition writeRerunFailsReport (opts : options) (exec : Execution) (w : W)
    : option error * W :=
  if bool_decide (rerunFailsMaxAttempts opts = 0%Z)
     || bool_decide (rerunFailsReportFile opts = "") then (None, w)
  else
    let rows := reportRows exec in
    match Create (rerunFailsReportFile opts) w with
    | (Some err, w) => (Some err, w)
    | (None, w) =>
        (None,
         foldl (λ w row, WriteString (rerunFailsReportFile opts) (reportLine row) w)
               w rows)
    end.

End Report.

(** *** A scripted world *)

(** A stand-in for the collaborators, for running the model on concrete
    sessions: the outcomes of the successive [go test] runs are scripted,
    coverage files live in a table, and the world remembers the argument
    lists of the runs it started. *)
Module Double.

Record World := mkWorld {
  (** the runs still to come, each with the coverage profiles it writes
      when it is given a [-coverprofile] flag *)
  script : list (goTestProc * list Profile);
  covFiles : gmap string (list Profile);
  (** paths [os.Remove] and [os.Create] fail on *)
  locked : list string;
  started : list (list string);
  textFiles : gmap string string
}.

Fixpoint stripPrefix (pre s : string) : option string :=
  match pre with
  | EmptyString => Some s
  | String a pre' =>
      match s with
      | String b s' => if Ascii.eqb a b then stripPrefix pre' s' else None
      | EmptyString => None
      end
  end.

Definition coverPath (args : list string) : option string :=
  head (omap (stripPrefix "-coverprofile=") args).

(** The execution after an event: a failed test joins the failed cases of
    its package, a passed test the passed ones. *)
Definition add (runID : Z) (exec : Execution) (ev : TestEvent) : Execution :=
  if PackageEvent ev then exec
  else
    let p := PackageOf exec (evPackage ev) in
    let tc := mkTestCase (evPackage ev) (evTest ev) in
    if decide (evAction ev = ActionFail) then
      mkExecution (<[evPackage ev := mkPackage (Failed p ++ [tc]) (Passed p)]> (packages exec))
                  (errors exec) (panicked exec)
    else if decide (evAction ev = ActionPass) then
      mkExecution (<[evPackage ev := mkPackage (Failed p) (Passed p ++ [tc])]> (packages exec))
                  (errors exec) (panicked exec)
    else exec.

Definition exitCode (e : error) : Z :=
  if decide (Error e = "exit status 1") then 1 else 2.

Definition start (args : list string) (w : World)
    : (error + goTestProc) * World :=
  match script w with
  | [] => (inl (Err "exec: no more runs"), w)
  | (proc, cov) :: rest =>
      let files :=
        match coverPath args with
        | Some path => <[path := cov]> (covFiles w)
        | None => covFiles w
        end in
      (inr proc, mkWorld rest files (locked w) (started w ++ [args]) (textFiles w))
  end.

Definition parseProfiles (path : string) (w : World)
    : (error + list Profile) * World :=
  match covFiles w !! path with
  | Some ps => (inr ps, w)
  | None => (inl (Err ("open " +:+ path +:+ ": no such file")), w)
  end.

Definition remove (path : string) (w : World) : option error * World :=
  if bool_decide (path ∈ locked w) then
    (Some (Err ("remove " +:+ path +:+ ": permission denied")), w)
  else
    (None, mkWorld (script w) (delete path (covFiles w)) (locked w) (started w)
                   (textFiles w)).

Definition combine (main : string) (others : list Profile) (w : World)
    : option error * World :=
  let '(err, files) := coverprofile.Combine main others (covFiles w) in
  (err, mkWorld (script w) files (locked w) (started w) (textFiles w)).

Definition create (path : string) (w : World) : option error * World :=
  if bool_decide (path ∈ locked w) then
    (Some (Err ("open " +:+ path +:+ ": permission denied")), w)
  else
    (None, mkWorld (script w) (covFiles w) (locked w) (started w)
                   (<[path := ""]> (textFiles w))).

Definition writeString (path text : string) (w : World) : World :=
  mkWorld (script w) (covFiles w) (locked w) (started w)
          (<[path := default "" (textFiles w !! path) +:+ text]> (textFiles w)).

#[global] Instance collaborators : Collaborators World := {|
  ExitCode := exitCode;
  execAdd := add;
  startGoTestFn := start;
  goTestCmdArgs := λ opts ro, "test" :: "-json" :: Args ro;
  ParseCoverProfile := λ args,
    match coverPath args with
    | Some path => (true, path)
    | None => (false, "")
    end;
  ParseProfiles := parseProfiles;
  Remove := remove;
  Combine := combine;
  Create := create;
  WriteString := writeString
|}.

(** The downstream handler keeps the events it is given. *)
Definition logHandler : EventHandlerT (list TestEvent) :=
  λ event _ seen, (None, seen ++ [event]).

Definition failEvent (package test : string) : TestEvent :=
  mkTestEvent ActionFail package test.
Definition passEvent (package test : string) : TestEvent :=
  mkTestEvent ActionPass package test.

(** Package [p] with the given failed and passed cases, as the only
    package of an execution without errors. *)
Definition execOf (p : string) (failedTests passedTests : list string) : Execution :=
  mkExecution {[ p := mkPackage (map (mkTestCase p) failedTests)
                                (map (mkTestCase p) passedTests) ]} [] false.

(** The session of the spec's end-to-end example: the first run failed [A]
    and [B]; rerun, [A] passes and [B] fails again; rerun once more, [B]
    passes. *)
Definition exampleOpts : options := mkOptions ["./..."] 3 false "".
Definition exampleExec : Execution := execOf "p" ["A"; "B"] [].
Definition exampleWorld : World :=
  mkWorld [ (mkProc [passEvent "p" "A"; passEvent "p" ""] None None, []);
            (mkProc [failEvent "p" "B"; failEvent "p" ""] None
                    (Some (Err "exit status 1")), []);
            (mkProc [passEvent "p" "B"; passEvent "p" ""] None None, []) ]
          ∅ [] [] ∅.

(** The same session with a single attempt allowed. *)
Definition oneAttemptOpts : options := mkOptions ["./..."] 1 false "".

(** A session with coverage: the first run left the block [blk 3] in
    [cover.out] and failed [A]; the rerun of [A] passes and writes [blk 5]
    to the profile it is given.  In [lockedWorld] the rerun's profile
    cannot be removed. *)
Definition blk (n : Z) : Block := mkBlock "a.go" 1 1 3 2 2 n.
Definition coverOpts : options :=
  mkOptions ["./..."; "-coverprofile=cover.out"] 3 false "".
Definition coverExec : Execution := execOf "p" ["A"] [].
Definition coverWorld : World :=
  mkWorld [ (mkProc [passEvent "p" "A"; passEvent "p" ""] None None, [[blk 5]]) ]
          {[ "cover.out" := [[blk 3]] ]} [] [] ∅.
Definition lockedWorld : World :=
  mkWorld (script coverWorld) (covFiles coverWorld) ["cover.out.0.0"] [] ∅.

End Double.

(** *** Notions the statements use *)

(** A test event that reports a failed test: not a package-level event, and
    its action is [fail]. *)
Definition testFailed (ev : TestEvent) : bool :=
  negb (PackageEvent ev) && bool_decide (evAction ev = ActionFail).

(** The case a recorder appends for a failing event it is handed together
    with the execution [exec]: the last-failed case of that test name in
    the event's package. *)
Definition failedCase (ev : TestEvent) (exec : Execution) : TestCase :=
  LastFailedByName (PackageOf exec (evPackage ev)) (evTest ev).

(** The cases appended for a sequence of delivered events: one for each
    failing event, in order, and none for any other event. *)
Definition recorded (delivered : list (TestEvent * Execution)) : list TestCase :=
  mbind (λ d, if testFailed d.1 then [failedCase d.1 d.2] else []) delivered.

(** The events of a round: those delivered in its invocations, in order. *)
Definition roundDelivered {H : Type} (r : roundLog H) : list (TestEvent * Execution) :=
  mbind ilDelivered (rlInvocations r).

(** The last error among a sequence of completion errors, [nil] when all of
    them are [nil]. *)
Definition lastSomeFrom {A : Type} (init : option A) (l : list (option A)) : option A :=
  foldl (λ acc o, match o with Some _ => o | None => acc end) init l.

Definition lastSome {A : Type} (l : list (option A)) : option A :=
  lastSomeFrom None l.

(** The runs of a test among the cases of a list, and the tally a report
    row is expected to show for a failure: all its failed and passed runs in
    its package, and its failed runs. *)
Definition runsOf (failure : TestCase) (tcs : list TestCase) : Z :=
  Z.of_nat (length (filter (λ tc, tcTest tc = tcTest failure) tcs)).

Definition tallyOf (exec : Execution) (failure : TestCase) : testCaseCounts :=
  let pkg := PackageOf exec (tcPackage failure) in
  mkCounts (runsOf failure (Failed pkg) + runsOf failure (Passed pkg))
           (runsOf failure (Failed pkg)).

(** The first failure of a list that is reported under [name]. *)
Definition firstNamed (name : string) (failures : list TestCase) : option TestCase :=
  head (filter (λ f, reportName f = name) failures).

(** The [return] statements inside the loop of [rerunFailed]. *)
Definition inLoopExit (ex : exit) : bool :=
  match ex with
  | AtStart | AtScan | AtParse | AtRemove | AtClassifier => true
  | _ => false
  end.

(** The rounds of a session form a chain: each round is driven by the
    recorder the round before it left, the first one by [rec]. *)
Fixpoint chained {H : Type} (rec : failureRecorder H) (rounds : list (roundLog H)) : Prop :=
  match rounds with
  | [] => True
  | r :: rounds' => rlRec r = rec ∧ chained (rlNextRec r) rounds'
  end.

(** The recorder a chain of rounds ends with. *)
Definition lastRec {H : Type} (rec : failureRecorder H) (rounds : list (roundLog H))
    : failureRecorder H :=
  default rec (rlNextRec <$> last rounds).

(** The [return] statements inside the loop: each returns an error. *)
Definition returnsInLoop (stop : exit * option error) : Prop :=
  inLoopExit stop.1 = true ∧ is_Some stop.2.

(** What holds of every round of a session run with [opts] and
    [handler]. *)
Definition roundOk {H : Type} (opts : options) (handler : EventHandlerT H)
    (r : roundLog H) : Prop :=
  failures (rlRec r) ≠ []
  ∧ (0 ≤ rlAttempt r < rerunFailsMaxAttempts opts)%Z
  ∧ rlSelected r = rerunFailsFilter opts (failures (rlRec r))
  ∧ EventHandler (rlNextRec r) = Some handler
  ∧ failures (rlNextRec r) = recorded (roundDelivered r)
  ∧ lastErr (rlNextRec r) = lastSome (map ilExit (rlInvocations r)).

(** The loop of [rerunFailed], as the function enters it. *)
Definition loopOf {W H : Type} `{!Collaborators W} (opts : options)
    (handler : EventHandlerT H) (exec : Execution) (h : H) (w : W) : session W H :=
  rerunRounds opts handler (Z.to_nat (rerunFailsMaxAttempts opts)) 0
    (newFailureRecorderFromExecution exec) (mkState w exec h []).

(** A handler called directly by the scanner, without a recorder around
    it. *)
Definition directHandle {H : Type} (handler : EventHandlerT H) (h : H)
    (event : TestEvent) (execution : Execution) : outcome (option error * H) :=
  Done (handler event execution h).

(** The path of the coverage profile of the rerun at index [i] of round
    [attempts]: [fmt.Sprintf("%s.%d.%d", mainProfilePath, attempts, i)]. *)
Definition rerunProfilePathOf {W : Type} `{!Collaborators W} (opts : options)
    (attempts : Z) (i : nat) : string :=
  mainProfilePath opts +:+ "." +:+ pretty attempts +:+ "." +:+ pretty i.

(** The argument list of the rerun of [tc] at index [i] of round
    [attempts]: the rerun options of the case, with a coverage profile of
    its own when the session has one. *)
Definition invocationArgs {W : Type} `{!Collaborators W} (opts : options)
    (attempts : Z) (i : nat) (tc : TestCase) : list string :=
  goTestCmdArgs opts
    (if isCoverprofile opts
     then withCoverprofile (newRerunOptsFromTestCase tc)
            (rerunProfilePathOf opts attempts i)
     else newRerunOptsFromTestCase tc).

(** The invocations of a round rerun its selected cases in order, from the
    first one on, each under the round's number and its own index. *)
Definition invocationsOk {W H : Type} `{!Collaborators W} (opts : options)
    (r : roundLog H) : Prop :=
  ∀ j il, rlInvocations r !! j = Some il →
    ilAttempt il = rlAttempt r
    ∧ ilIndex il = j
    ∧ rlSelected r !! j = Some (ilCase il)
    ∧ ilArgs il = invocationArgs opts (rlAttempt r) j (ilCase il).

(** The events delivered in a whole session, round after round. *)
Definition sessionDelivered {W H : Type} (s : session W H)
    : list (TestEvent * Execution) :=
  mbind roundDelivered (sRounds s).

(** The store of a handler after it was given a sequence of events, and the
    execution shown with the last of them. *)
Definition feed {H : Type} (handler : EventHandlerT H) (h : H)
    (delivered : list (TestEvent * Execution)) : H :=
  foldl (λ h d, (handler d.1 d.2 h).2) h delivered.

Definition lastShown (exec : Execution) (delivered : list (TestEvent * Execution))
    : Execution :=
  foldl (λ _ d, d.2) exec delivered.

(** The collaborators with other coverage-file operations. *)
Definition withCoverageOps {W : Type} (C : Collaborators W)
    (parse : string → W → (error + list Profile) * W)
    (remove : string → W → option error * W)
    (combine : string → list Profile → W → option error * W) : Collaborators W :=
  {| ExitCode := @ExitCode W C;
     execAdd := @execAdd W C;
     startGoTestFn := @startGoTestFn W C;
     goTestCmdArgs := @goTestCmdArgs W C;
     ParseCoverProfile := @ParseCoverProfile W C;
     ParseProfiles := parse;
     Remove := remove;
     Combine := combine;
     Create := @Create W C;
     WriteString := @WriteString W C |}.

(* ===================================================================== *)
(** ** Part II: theorems *)
(* ===================================================================== *)

Section RunFlag.

Import GoStrings.

Lemma append_cons x (a b : string) : String x a +:+ b = String x (a +:+ b).
Proof. reflexivity. Qed.

Lemma append_nil_l (a : string) : "" +:+ a = a.
Proof. reflexivity. Qed.

Lemma append_assoc (a b c : string) : (a +:+ b) +:+ c = a +:+ (b +:+ c).
Proof.
  induction a as [|x a IH]; [done |].
  by rewrite !append_cons, IH.
Qed.

Lemma append_nil_r (a : string) : a +:+ "" = a.
Proof.
  induction a as [|x a IH]; [done |].
  by rewrite append_cons, IH.
Qed.

Lemma Split_nonempty s sep : Split s sep ≠ [].
Proof.
  destruct s as [|b s]; simpl; [done |].
  destruct (Ascii.eqb b sep); [done |].
  by destruct (Split s sep).
Qed.

Lemma Split_no_sep s sep : Contains s sep = false → Split s sep = [s].
Proof.
  induction s as [|b s IH]; simpl; [done |].
  destruct (Ascii.eqb b sep); simpl; [done |].
  intros Hc. by rewrite (IH Hc).
Qed.

(** The builder loop writes the remaining segments after what is already
    in the buffer, with a [/] before each segment but the very first. *)
Lemma writeParts_spec parts : ∀ i sb,
  writeParts i parts sb =
    sb +:+ match parts with
           | [] => ""
           | _ => (if bool_decide (0 < i)%nat then "/" else "")
                  +:+ anchoredPattern parts
           end.
Proof.
  induction parts as [|p ps IH]; intros i sb.
  - simpl. by rewrite append_nil_r.
  - cbn [writeParts]. rewrite IH.
    destruct ps as [|q qs].
    + rewrite append_nil_r. unfold anchoredPattern, anchored. cbn [map String.concat].
      case_bool_decide; rewrite !append_assoc; done.
    + rewrite (bool_decide_eq_true_2 (0 < S i)%nat); [|lia].
      unfold anchoredPattern, anchored. cbn [map String.concat].
      case_bool_decide; rewrite !append_assoc; simpl; done.
Qed.

Lemma flag_is_anchoredPattern (t : testjson.TestName) :
  goTestRunFlagForTestCase t = "-test.run=" +:+ anchoredPattern (Split t "/"%char).
Proof.
  unfold goTestRunFlagForTestCase.
  destruct (testjson.IsSubTest t) eqn:Hsub.
  - rewrite writeParts_spec.
    destruct (Split t "/"%char) eqn:Hs; [by apply Split_nonempty in Hs |].
    by rewrite bool_decide_eq_false_2 by lia.
  - unfold testjson.IsSubTest in Hsub. rewrite (Split_no_sep _ _ Hsub).
    unfold anchoredPattern, anchored, testjson.Name. simpl. done.
Qed.

Lemma QuoteMeta_no_special s :
  forallb (λ b, negb (special b)) (list_ascii_of_string s) = true →
  QuoteMeta s = s.
Proof.
  induction s as [|b s IH]; simpl; [done |].
  intros [Hb Hs]%andb_prop. apply negb_true_iff in Hb. rewrite Hb.
  by rewrite IH.
Qed.

Lemma literal_match_QuoteMeta s : ∀ t,
  literal_match (QuoteMeta s) t = true ↔ t = s.
Proof.
  induction s as [|b s IH]; intros t.
  - simpl. destruct t; split; congruence.
  - cbn [QuoteMeta]. destruct (special b) eqn:Hsp.
    + cbn [literal_match]. rewrite Ascii.eqb_refl, Hsp.
      destruct t as [|e t]; [split; congruence |].
      rewrite !andb_true_iff, Ascii.eqb_eq, IH. cbn. split.
      * intros [[_ ->] ->]. done.
      * intros [= -> ->]. done.
    + cbn [literal_match].
      destruct (Ascii.eqb b "\"%char) eqn:Hbs.
      { apply Ascii.eqb_eq in Hbs. subst b. by vm_compute in Hsp. }
      rewrite Hsp. destruct t as [|e t]; [split; congruence |].
      rewrite andb_true_iff, Ascii.eqb_eq, IH. split.
      * intros [-> ->]. done.
      * intros [= -> ->]. done.
Qed.

Lemma Split_app_sep x sep r :
  Contains x sep = false → Split (x +:+ String sep r) sep = x :: Split r sep.
Proof.
  induction x as [|b x IH]; intros Hx.
  - rewrite append_nil_l. cbn [Split]. by rewrite Ascii.eqb_refl.
  - cbn [Contains] in Hx. apply orb_false_iff in Hx as [Hb Hx].
    rewrite append_cons. cbn [Split]. rewrite Hb, (IH Hx). done.
Qed.

(** Splitting the name [N/S1/.../Sk] gives back its segments. *)
Lemma Split_concat seg segs :
  Forall (λ p, Contains p "/"%char = false) (seg :: segs) →
  Split (String.concat "/" (seg :: segs)) "/"%char = seg :: segs.
Proof.
  revert seg. induction segs as [|q qs IH]; intros seg Hall.
  - cbn [String.concat]. apply Split_no_sep. by inversion Hall.
  - inversion Hall as [|? ? Hseg Hrest]; subst.
    change (String.concat "/" (seg :: q :: qs))
      with (seg +:+ String "/"%char (String.concat "/" (q :: qs))).
    rewrite (Split_app_sep _ _ _ Hseg). by rewrite (IH q Hrest).
Qed.

(** C3 (as stated, refuted): the subtest ["TestFoo/bar baz"] does not yield
    [^TestFoo$/^bar\ baz$].  [regexp.QuoteMeta] leaves a space alone, so the
    builder returns [-test.run=^TestFoo$/^bar baz$]. *)
Lemma runFlag_space_not_escaped :
  goTestRunFlagForTestCase "TestFoo/bar baz" = "-test.run=^TestFoo$/^bar baz$"
  ∧ goTestRunFlagForTestCase "TestFoo/bar baz" ≠ "-test.run=^TestFoo$/^bar\ baz$".
Proof. split; [reflexivity | discriminate]. Qed.

(** C3 (amended): for every test name the builder returns [-test.run=]
    followed by the name's [/]-separated segments, each escaped by
    [regexp.QuoteMeta] and anchored as [^...$], joined by [/].  So a subtest
    [N/S1/.../Sk] yields [^Q(N)$/^Q(S1)$/.../^Q(Sk)$], a root name [N] yields
    [^Q(N)$], which is [^N$] when [N] holds no metacharacter (["TestFoo"]
    yields [^TestFoo$]); a space is no metacharacter, so ["TestFoo/bar baz"]
    yields [^TestFoo$/^bar baz$], while ["TestOne/Subtest(A)"] yields
    [^TestOne$/^Subtest\(A\)$]. *)
Theorem runFlag_anchored_segments :
  (∀ t : testjson.TestName,
     goTestRunFlagForTestCase t
     = "-test.run=" +:+ anchoredPattern (Split t "/"%char))
  ∧ (∀ (N : string) (Ss : list string),
       Forall (λ p, Contains p "/"%char = false) (N :: Ss) →
       goTestRunFlagForTestCase (String.concat "/" (N :: Ss))
       = "-test.run=" +:+ String.concat "/" (map anchored (N :: Ss)))
  ∧ (∀ N : testjson.TestName,
       testjson.IsSubTest N = false →
       goTestRunFlagForTestCase N = "-test.run=^" +:+ QuoteMeta N +:+ "$")
  ∧ (∀ N : testjson.TestName,
       testjson.IsSubTest N = false →
       forallb (λ b, negb (special b)) (list_ascii_of_string N) = true →
       goTestRunFlagForTestCase N = "-test.run=^" +:+ N +:+ "$")
  ∧ goTestRunFlagForTestCase "TestFoo" = "-test.run=^TestFoo$"
  ∧ goTestRunFlagForTestCase "TestFoo/bar baz" = "-test.run=^TestFoo$/^bar baz$"
  ∧ goTestRunFlagForTestCase "TestOne/Subtest(A)"
    = "-test.run=^TestOne$/^Subtest\(A\)$".
Proof.
  split; [exact flag_is_anchoredPattern |].
  split.
  { intros N Ss Hall. rewrite flag_is_anchoredPattern.
    by rewrite (Split_concat _ _ Hall). }
  split.
  { intros N Hroot. unfold goTestRunFlagForTestCase. by rewrite Hroot. }
  split.
  { intros N Hroot Hplain. unfold goTestRunFlagForTestCase.
    rewrite Hroot. unfold testjson.Name. by rewrite (QuoteMeta_no_special _ Hplain). }
  repeat split; reflexivity.
Qed.

(** The builder on the subtest [TestA/x.y/z] and on the root [TestA]. *)
Lemma runFlag_anchored_segments_witness :
  goTestRunFlagForTestCase (String.concat "/" ["TestA"; "x.y"; "z"])
  = "-test.run=^TestA$/^x\.y$/^z$"
  ∧ goTestRunFlagForTestCase "TestA" = "-test.run=^TestA$".
Proof.
  destruct runFlag_anchored_segments as (_ & Hsub & _ & Hplain & _).
  split.
  - rewrite (Hsub "TestA" ["x.y"; "z"]); [reflexivity |].
    repeat constructor.
  - apply (Hplain "TestA"); reflexivity.
Defined.

(** C10: a root test name is regex-escaped as well.  For every name [N]
    without [/] the builder returns [-test.run=^Q(N)$] with
    [Q = regexp.QuoteMeta], and [Q(N)] is a literal pattern that matches the
    text [N] and no other text; so ["TestFoo.Bar"] yields
    [^TestFoo\.Bar$]. *)
Theorem runFlag_root_name_escaped (N : testjson.TestName) :
  testjson.IsSubTest N = false →
  goTestRunFlagForTestCase N = "-test.run=^" +:+ QuoteMeta N +:+ "$"
  ∧ (∀ t, literal_match (QuoteMeta N) t = true ↔ t = N).
Proof.
  intros Hroot. split.
  - unfold goTestRunFlagForTestCase. by rewrite Hroot.
  - apply literal_match_QuoteMeta.
Qed.

(** The root name [TestFoo.Bar]: its pattern matches the name and not
    [TestFooxBar], which the unescaped dot would admit. *)
Lemma runFlag_root_name_escaped_witness :
  testjson.IsSubTest "TestFoo.Bar" = false
  ∧ goTestRunFlagForTestCase "TestFoo.Bar" = "-test.run=^TestFoo\.Bar$"
  ∧ literal_match "TestFoo\.Bar" "TestFoo.Bar" = true
  ∧ literal_match "TestFoo\.Bar" "TestFooxBar" = false.
Proof.
  split; [reflexivity |].
  destruct (runFlag_root_name_escaped "TestFoo.Bar" eq_refl) as [Hflag Hlit].
  split; [exact Hflag |].
  split; [by apply (Hlit "TestFoo.Bar") | reflexivity].
Defined.

End RunFlag.

(** *** The outcome classifier *)

Section Classifier.

Context {W : Type} `{!Collaborators W}.

(** C2: [hasErrors] returns an error exactly when the execution has a
    recorded error, or the normalized exit code (nil is 0) is greater than 1,
    or the execution reports a suspected panic; it returns nil for a code of
    at most 1 (so for 0 and 1) when there is neither.  The three rules are
    tried in this order: the error names the first rule that applies. *)
Theorem hasErrors_classifies (err : option error) (exec : Execution) :
  (is_Some (hasErrors err exec)
   ↔ Errors exec ≠ [] ∨ (ExitCodeWithDefault err > 1)%Z ∨ HasPanic exec = true)
  ∧ ExitCodeWithDefault None = 0%Z
  ∧ (Errors exec ≠ [] →
     hasErrors err exec
     = Some (Errorf "rerun aborted because previous run had errors"))
  ∧ (Errors exec = [] → (ExitCodeWithDefault err > 1)%Z →
     hasErrors err exec
     = Some (Errorf ("unexpected go test exit code: " +:+ fmtErr err)))
  ∧ (Errors exec = [] → (ExitCodeWithDefault err ≤ 1)%Z → HasPanic exec = true →
     hasErrors err exec
     = Some (Errorf "rerun aborted because previous run had a suspected panic and some test may not have run"))
  ∧ (Errors exec = [] → (ExitCodeWithDefault err ≤ 1)%Z → HasPanic exec = false →
     hasErrors err exec = None).
Proof.
  unfold hasErrors.
  destruct (Errors exec) as [|e es] eqn:He; cbn [length].
  - rewrite bool_decide_eq_false_2 by lia.
    case_bool_decide as Hc; [| destruct (HasPanic exec) eqn:Hp].
    + split; [split; [intros _; right; left; lia | eauto] |].
      split_and!; intros; try done; lia.
    + split; [split; [intros _; right; right; done | eauto] |].
      split_and!; intros; try done; lia.
    + split.
      { split; [intros []%is_Some_None |].
        intros [? | [? | ?]]; [done | lia | done]. }
      split_and!; intros; try done; lia.
  - rewrite bool_decide_eq_true_2 by lia.
    split; [split; [intros _; left; done | eauto] |].
    split_and!; intros; done.
Qed.

End Classifier.

(** The classifier on an exit status of 2, on an exit status of 1, and on
    an execution with a recorded error. *)
Lemma hasErrors_classifies_witness :
  hasErrors (Some (Err "exit status 2")) (Double.execOf "p" ["A"] [])
  = Some (Errorf "unexpected go test exit code: exit status 2")
  ∧ hasErrors (Some (Err "exit status 1")) (Double.execOf "p" ["A"] []) = None
  ∧ hasErrors None (mkExecution ∅ ["bad line"] false)
    = Some (Errorf "rerun aborted because previous run had errors").
Proof.
  split; [| split].
  - apply (hasErrors_classifies (Some (Err "exit status 2"))
             (Double.execOf "p" ["A"] [])); [reflexivity | vm_compute; reflexivity].
  - apply (hasErrors_classifies (Some (Err "exit status 1"))
             (Double.execOf "p" ["A"] []));
      [reflexivity | vm_compute; discriminate | reflexivity].
  - apply (hasErrors_classifies None (mkExecution ∅ ["bad line"] false)).
    discriminate.
Defined.

(** *** The failure recorder and the scanner *)

Section Recorder.

Context {W H : Type} `{!Collaborators W}.

Lemma recorded_app (d1 d2 : list (TestEvent * Execution)) :
  recorded (d1 ++ d2) = recorded d1 ++ recorded d2.
Proof. unfold recorded. apply bind_app. Qed.

Lemma recorded_cons d (ds : list (TestEvent * Execution)) :
  recorded (d :: ds)
  = (if testFailed d.1 then [failedCase d.1 d.2] else []) ++ recorded ds.
Proof. reflexivity. Qed.

(** One call of [Event] on a recorder that wraps [handler]. *)
Lemma Event_wrapping (r : failureRecorder H) (handler : EventHandlerT H)
    (ev : TestEvent) (exec : Execution) (h : H) :
  EventHandler r = Some handler →
  Event r ev exec h
  = Done ((handler ev exec h).1,
          (mkRecorder (Some handler)
             (failures r ++ recorded [(ev, exec)]) (lastErr r),
           (handler ev exec h).2)).
Proof.
  intros Hh. unfold Event, recorded, testFailed, failedCase. cbn.
  destruct (negb (PackageEvent ev) && bool_decide (evAction ev = ActionFail));
    cbn; rewrite Hh; destruct (handler ev exec h) as [err h']; cbn.
  - done.
  - rewrite app_nil_r. destruct r; cbn in *; by subst.
Qed.

(** A scan through a recorder that wraps [handler] and a scan with
    [handler] alone hand the same events, with the same executions, to
    [handler], and end alike; the recorder gains the cases of the failing
    events delivered and nothing else. *)
Lemma scanEvents_recorder (handler : EventHandlerT H) (runID : Z)
    (streamErr : option error) (events : list TestEvent) :
  ∀ (exec : Execution) (r : failureRecorder H) (h : H),
    EventHandler r = Some handler →
    ∃ sc sc',
      scanEvents recorderHandle runID events streamErr exec (r, h) = Done sc
      ∧ scanEvents (directHandle handler) runID events streamErr exec h = Done sc'
      ∧ scErr sc = scErr sc'
      ∧ scExec sc = scExec sc'
      ∧ scDelivered sc = scDelivered sc'
      ∧ (scHandler sc).2 = scHandler sc'
      ∧ EventHandler (scHandler sc).1 = Some handler
      ∧ failures (scHandler sc).1 = failures r ++ recorded (scDelivered sc)
      ∧ lastErr (scHandler sc).1 = lastErr r.
Proof.
  induction events as [|ev evs IH]; intros exec r h Hh.
  - cbn. eexists _, _. split_and!; try reflexivity; cbn; [done |].
    by rewrite app_nil_r.
  - cbn [scanEvents]. unfold recorderHandle at 1, directHandle at 1. cbn [fst snd].
    rewrite (Event_wrapping r handler _ _ _ Hh).
    destruct (handler ev (execAdd runID exec ev) h) as [[err|] h'] eqn:Hcall; cbn [fst snd].
    + eexists _, _. split_and!; try reflexivity; cbn; done.
    + set (r' := mkRecorder (Some handler)
                   (failures r ++ recorded [(ev, execAdd runID exec ev)]) (lastErr r)).
      destruct (IH (execAdd runID exec ev) r' h' eq_refl)
        as (sc & sc' & -> & -> & He & Hx & Hd & Hs & Hh' & Hf & Hl).
      eexists _, _. split_and!; try reflexivity;
        cbn [scDelivered scHandler scErr scExec fst snd]; try done.
      * by rewrite Hd.
      * rewrite Hf. subst r'. cbn [failures].
        rewrite <- app_assoc. f_equal.
        by rewrite <- recorded_app.
Qed.

(** C7: a recorder that wraps a handler appends a case exactly when the
    event it receives is not a package-level event and has the action
    [fail], the case being the package's last-failed case of that test name;
    and it hands every event, failing or not, with the same execution, to
    the wrapped handler, whose answer it returns.  Over a whole scan the
    wrapped handler sees the same events as without a recorder. *)
Theorem Event_records_and_forwards (r : failureRecorder H)
    (handler : EventHandlerT H) (ev : TestEvent) (exec : Execution) (h : H) :
  EventHandler r = Some handler →
  (∃ r' : failureRecorder H,
     Event r ev exec h = Done ((handler ev exec h).1, (r', (handler ev exec h).2))
     ∧ EventHandler r' = Some handler
     ∧ lastErr r' = lastErr r
     ∧ failures r'
       = (if negb (PackageEvent ev) && bool_decide (evAction ev = ActionFail)
          then failures r
               ++ [LastFailedByName (PackageOf exec (evPackage ev)) (evTest ev)]
          else failures r))
  ∧ (∀ runID events streamErr,
       ∃ sc sc',
         scanEvents recorderHandle runID events streamErr exec (r, h) = Done sc
         ∧ scanEvents (directHandle handler) runID events streamErr exec h = Done sc'
         ∧ scErr sc = scErr sc'
         ∧ scDelivered sc = scDelivered sc'
         ∧ (scHandler sc).2 = scHandler sc').
Proof.
  intros Hh. split.
  - eexists. split; [apply (Event_wrapping _ _ _ _ _ Hh) |].
    cbn. split_and!; try done.
    unfold recorded, testFailed, failedCase. cbn.
    destruct (negb (PackageEvent ev) && bool_decide (evAction ev = ActionFail)); cbn;
      [done | by rewrite app_nil_r].
  - intros runID events streamErr.
    destruct (scanEvents_recorder handler runID streamErr events exec r h Hh)
      as (sc & sc' & H1 & H2 & H3 & _ & H5 & H6 & _).
    by exists sc, sc'.
Qed.

End Recorder.

(** A failing and a passing event of test [B] handed to a fresh recorder:
    the first is recorded, both reach the wrapped handler. *)
Lemma Event_records_and_forwards_witness :
  Event (newFailureRecorder Double.logHandler) (Double.failEvent "p" "B")
        (Double.execOf "p" ["A"; "B"] []) []
  = Done (None, (mkRecorder (Some Double.logHandler) [mkTestCase "p" "B"] None,
                 [Double.failEvent "p" "B"]))
  ∧ Event (newFailureRecorder Double.logHandler) (Double.passEvent "p" "B")
        (Double.execOf "p" ["A"; "B"] []) []
  = Done (None, (mkRecorder (Some Double.logHandler) [] None,
                 [Double.passEvent "p" "B"])).
Proof.
  split.
  - destruct (Event_records_and_forwards (newFailureRecorder Double.logHandler)
                Double.logHandler (Double.failEvent "p" "B")
                (Double.execOf "p" ["A"; "B"] []) [] eq_refl)
      as [(r' & -> & Hh & Hl & Hf) _].
    destruct r' as [hd fs le]. cbn in Hh, Hl, Hf. subst. reflexivity.
  - destruct (Event_records_and_forwards (newFailureRecorder Double.logHandler)
                Double.logHandler (Double.passEvent "p" "B")
                (Double.execOf "p" ["A"; "B"] []) [] eq_refl)
      as [(r' & -> & Hh & Hl & Hf) _].
    destruct r' as [hd fs le]. cbn in Hh, Hl, Hf. subst. reflexivity.
Defined.

(** *** The rerun loop *)

Section Loop.

Context {W H : Type} `{!Collaborators W}.
Variable opts : options.
Variable handler : EventHandlerT H.

Lemma lastSomeFrom_app {A} (init : option A) l1 l2 :
  lastSomeFrom init (l1 ++ l2) = lastSomeFrom (lastSomeFrom init l1) l2.
Proof. unfold lastSomeFrom. apply foldl_app. Qed.

(** One invocation: the recorder keeps its handler, gains the cases of the
    failing events delivered, and takes the completion error when that is
    not nil. *)
Lemma rerunOne_spec (attempts : Z) (i : nat) (tc : TestCase)
    (nextRec : failureRecorder H) (st : state W H) :
  EventHandler nextRec = Some handler →
  EventHandler (crRec (rerunOne opts attempts i tc nextRec st)) = Some handler
  ∧ failures (crRec (rerunOne opts attempts i tc nextRec st))
    = failures nextRec
      ++ recorded (ilDelivered (crLog (rerunOne opts attempts i tc nextRec st)))
  ∧ lastErr (crRec (rerunOne opts attempts i tc nextRec st))
    = lastSomeFrom (lastErr nextRec)
        [ilExit (crLog (rerunOne opts attempts i tc nextRec st))]
  ∧ (∀ stop, crStop (rerunOne opts attempts i tc nextRec st) = Some stop →
             returnsInLoop stop).
Proof.
  intros Hh. unfold rerunOne, returnsInLoop.
  destruct (startGoTestFn _ (stWorld st)) as [[err | proc] w].
  { cbn. rewrite app_nil_r. split_and!; try done.
    intros stop [= <-]. cbn. split; [done | eauto]. }
  destruct (scanEvents_recorder handler (attempts + 1) (streamErr proc)
              (stdout proc) (stExec st) nextRec (stHandler st) Hh)
    as (sc & sc' & -> & _ & _ & _ & _ & _ & Hh' & Hf & Hl).
  destruct (scErr sc) as [err|].
  { cbn. split_and!; try done.
    intros stop [= <-]. cbn. split; [done | eauto]. }
  assert (Hrec : ∀ r' : failureRecorder H,
            r' = match wait proc with
                 | Some _ => setLastErr (scHandler sc).1 (wait proc)
                 | None => (scHandler sc).1
                 end →
            EventHandler r' = Some handler
            ∧ failures r' = failures nextRec ++ recorded (scDelivered sc)
            ∧ lastErr r' = lastSomeFrom (lastErr nextRec) [wait proc]).
  { intros r' ->. destruct (wait proc); cbn; rewrite ?Hl; done. }
  specialize (Hrec _ eq_refl). destruct Hrec as (Hr1 & Hr2 & Hr3).
  destruct (isCoverprofile opts).
  - destruct (ParseProfiles _ w) as [[err | prof] w1].
    { cbn. split_and!; try done.
      intros stop [= <-]. cbn. split; [done | eauto]. }
    destruct (Remove _ w1) as [[err|] w2].
    { cbn. split_and!; try done.
      intros stop [= <-]. cbn. split; [done | eauto]. }
    destruct (hasErrors (wait proc) (scExec sc)) as [err|]; cbn.
    + split_and!; try done.
      intros stop [= <-]. cbn. split; [done | eauto].
    + split_and!; done.
  - destruct (hasErrors (wait proc) (scExec sc)) as [err|]; cbn.
    + split_and!; try done.
      intros stop [= <-]. cbn. split; [done | eauto].
    + split_and!; done.
Qed.

(** The inner loop: the same over all its invocations. *)
Lemma rerunCases_spec (attempts : Z) (tcs : list TestCase) :
  ∀ (i : nat) (nextRec : failureRecorder H) (st : state W H),
    EventHandler nextRec = Some handler →
    EventHandler (csRec (rerunCases opts attempts i tcs nextRec st)) = Some handler
    ∧ failures (csRec (rerunCases opts attempts i tcs nextRec st))
      = failures nextRec
        ++ recorded (mbind ilDelivered (csLogs (rerunCases opts attempts i tcs nextRec st)))
    ∧ lastErr (csRec (rerunCases opts attempts i tcs nextRec st))
      = lastSomeFrom (lastErr nextRec)
          (map ilExit (csLogs (rerunCases opts attempts i tcs nextRec st)))
    ∧ (∀ stop, csStop (rerunCases opts attempts i tcs nextRec st) = Some stop →
               returnsInLoop stop).
Proof.
  induction tcs as [|tc tcs IH]; intros i nextRec st Hh.
  - cbn. rewrite app_nil_r. done.
  - cbn [rerunCases].
    destruct (rerunOne_spec attempts i tc nextRec st Hh) as (H1 & H2 & H3 & H4).
    destruct (crStop (rerunOne opts attempts i tc nextRec st)) as [stop|] eqn:Hstop.
    + cbn [csRec csLogs csStop]. split_and!; try done.
      rewrite H2. cbn. by rewrite app_nil_r.
    + destruct (IH (S i) _ (crState (rerunOne opts attempts i tc nextRec st)) H1)
        as (I1 & I2 & I3 & I4).
      cbn [csRec csLogs csStop]. split_and!; try done.
      * rewrite I2, H2, <- app_assoc. f_equal.
        change (mbind ilDelivered (?x :: ?l)) with (ilDelivered x ++ mbind ilDelivered l).
        by rewrite recorded_app.
      * rewrite I3, H3. reflexivity.
Qed.

Lemma lastRec_cons (rec : failureRecorder H) r rounds :
  lastRec rec (r :: rounds) = lastRec (rlNextRec r) rounds.
Proof.
  unfold lastRec. destruct rounds as [|r' rounds]; [done |].
  change (last (r :: r' :: rounds)) with (last (r' :: rounds)).
  by destruct (last (r' :: rounds)) eqn:Hl; [| apply last_None in Hl].
Qed.

(** The outer loop, from any point on. *)
Lemma rerunRounds_spec (fuel : nat) :
  ∀ (attempts : Z) (rec : failureRecorder H) (st : state W H),
    (0 ≤ attempts)%Z →
    chained rec (sRounds (rerunRounds opts handler fuel attempts rec st))
    ∧ Forall (roundOk opts handler) (sRounds (rerunRounds opts handler fuel attempts rec st))
    ∧ (length (sRounds (rerunRounds opts handler fuel attempts rec st))
       ≤ Z.to_nat (rerunFailsMaxAttempts opts - attempts))%nat
    ∧ (sExit (rerunRounds opts handler fuel attempts rec st) = AtEnd →
       sRec (rerunRounds opts handler fuel attempts rec st)
       = lastRec rec (sRounds (rerunRounds opts handler fuel attempts rec st))
       ∧ (failures (sRec (rerunRounds opts handler fuel attempts rec st)) = []
          ∨ length (sRounds (rerunRounds opts handler fuel attempts rec st))
            = Z.to_nat (rerunFailsMaxAttempts opts - attempts)))
    ∧ (inLoopExit (sExit (rerunRounds opts handler fuel attempts rec st)) = true →
       is_Some (sErr (rerunRounds opts handler fuel attempts rec st)))
    ∧ (inLoopExit (sExit (rerunRounds opts handler fuel attempts rec st)) = false →
       sExit (rerunRounds opts handler fuel attempts rec st) = AtEnd
       ∨ sExit (rerunRounds opts handler fuel attempts rec st) = OutOfFuel)
    ∧ ((Z.to_nat (rerunFailsMaxAttempts opts - attempts) ≤ fuel)%nat →
       sExit (rerunRounds opts handler fuel attempts rec st) ≠ OutOfFuel).
Proof.
  assert (Hleave : ∀ attempts (rec : failureRecorder H),
            bool_decide (0 < count rec)%nat
            && bool_decide (attempts < rerunFailsMaxAttempts opts)%Z = false →
            failures rec = []
            ∨ 0%nat = Z.to_nat (rerunFailsMaxAttempts opts - attempts)).
  { intros attempts rec
      [Hc%bool_decide_eq_false | Hc%bool_decide_eq_false]%andb_false_iff.
    - left. unfold count in Hc. destruct (failures rec); [done | cbn in Hc; lia].
    - right. lia. }
  induction fuel as [|fuel IH]; intros attempts rec st Hatt.
  - cbn [rerunRounds].
    destruct (bool_decide (0 < count rec)%nat
              && bool_decide (attempts < rerunFailsMaxAttempts opts)%Z) eqn:Hcond;
      cbn [sRounds sExit sRec sErr length inLoopExit chained].
    + apply andb_true_iff in Hcond as [_ Hlt%bool_decide_eq_true].
      split_and!; try done; try lia; eauto.
    + split_and!; try done; try lia; eauto.
  - cbn [rerunRounds].
    destruct (bool_decide (0 < count rec)%nat
              && bool_decide (attempts < rerunFailsMaxAttempts opts)%Z) eqn:Hcond.
    2:{ cbn [sRounds sExit sRec sErr length inLoopExit chained].
        split_and!; try done; try lia; eauto. }
    apply andb_true_iff in Hcond as [Hc%bool_decide_eq_true Hlt%bool_decide_eq_true].
    destruct (rerunCases_spec attempts (rerunFailsFilter opts (failures rec)) 0
                (newFailureRecorder handler) st eq_refl) as (C1 & C2 & C3 & C4).
    set (rs := rerunCases opts attempts 0 (rerunFailsFilter opts (failures rec))
                 (newFailureRecorder handler) st) in *.
    assert (Hok : roundOk opts handler (mkRoundLog attempts rec
                    (rerunFailsFilter opts (failures rec)) (csLogs rs) (csRec rs))).
    { unfold roundOk, roundDelivered. cbn.
      split_and!; try done; try lia.
      unfold count in Hc. destruct (failures rec); [cbn in Hc; lia | done]. }
    destruct (csStop rs) as [[ex err]|] eqn:Hstop.
    + cbn [sRounds sExit sRec sErr length chained].
      destruct (C4 _ eq_refl) as [Hex Herr]. cbn in Hex, Herr.
      split_and!; try done; try lia.
      * constructor; [exact Hok | constructor].
      * intros ->. done.
      * intros Hno. congruence.
      * intros _ ->. done.
    + destruct (IH (attempts + 1)%Z (csRec rs) (csState rs) ltac:(lia))
        as (I1 & I2 & I3 & I4 & I5 & I6 & I7).
      cbn [sRounds sExit sRec sErr length chained].
      split_and!; try done; try lia.
      * constructor; [exact Hok | exact I2].
      * intros Hend. destruct (I4 Hend) as [-> Hor].
        rewrite lastRec_cons. split; [done |].
        destruct Hor as [? | Hlen]; [by left | right]. lia.
      * intros Hfuel. apply I7. lia.
Qed.

End Loop.

(** *** The session as a whole *)

Section Session.

Context {W H : Type} `{!Collaborators W}.
Variable opts : options.
Variable handler : EventHandlerT H.

Lemma rerunFailed_loop (exec : Execution) (h : H) (w : W) :
  sRounds (rerunFailed opts handler exec h w) = sRounds (loopOf opts handler exec h w)
  ∧ sRec (rerunFailed opts handler exec h w) = sRec (loopOf opts handler exec h w)
  ∧ (sExit (rerunFailed opts handler exec h w) = AtEnd →
     sExit (loopOf opts handler exec h w) = AtEnd
     ∧ sErr (rerunFailed opts handler exec h w) = lastErr (sRec (loopOf opts handler exec h w)))
  ∧ (sExit (rerunFailed opts handler exec h w) = AtCombine
     ∨ sExit (rerunFailed opts handler exec h w) = sExit (loopOf opts handler exec h w))
  ∧ (sExit (rerunFailed opts handler exec h w) = AtCombine →
     is_Some (sErr (rerunFailed opts handler exec h w)))
  ∧ (sExit (loopOf opts handler exec h w) ≠ AtEnd →
     rerunFailed opts handler exec h w = loopOf opts handler exec h w).
Proof.
  assert (Hk : inLoopExit (sExit (loopOf opts handler exec h w)) = true
               ∨ sExit (loopOf opts handler exec h w) = AtEnd).
  { destruct (rerunRounds_spec opts handler (Z.to_nat (rerunFailsMaxAttempts opts))
                0 (newFailureRecorderFromExecution exec) (mkState w exec h [])
                ltac:(lia)) as (_ & _ & _ & _ & _ & Hkind & Hfuel).
    fold (loopOf opts handler exec h w) in Hkind, Hfuel.
    destruct (inLoopExit (sExit (loopOf opts handler exec h w))); [by left | right].
    destruct (Hkind eq_refl) as [? | Hout]; [done |].
    exfalso. apply Hfuel; [lia | done]. }
  unfold rerunFailed. fold (loopOf opts handler exec h w).
  destruct (sExit (loopOf opts handler exec h w)) eqn:Hex;
    try (by destruct Hk);
    try (split_and!; first [done | congruence | by right]).
  destruct (isCoverprofile opts).
  - destruct (Combine _ _ _) as [[err|] w']; cbn;
      split_and!; first [done | by left | by right | by eauto].
  - cbn. split_and!; first [done | by right].
Qed.

Lemma chained_lookup (rounds : list (roundLog H)) :
  ∀ (rec : failureRecorder H) (n : nat) (r r' : roundLog H),
    chained rec rounds →
    rounds !! n = Some r → rounds !! S n = Some r' →
    rlRec r' = rlNextRec r.
Proof.
  induction rounds as [|r0 rounds IH]; intros rec n r r' Hch Hn HSn; [done |].
  destruct Hch as [_ Hch]. destruct n as [|n].
  - injection Hn as <-. destruct rounds as [|r1 rounds]; [done |].
    injection HSn as <-. by destruct Hch.
  - by apply (IH (rlNextRec r0) n r r').
Qed.

Lemma lastRec_last (rec : failureRecorder H) (rounds : list (roundLog H)) :
  lastErr (lastRec rec rounds)
  = match last rounds with
    | Some r => lastErr (rlNextRec r)
    | None => lastErr rec
    end.
Proof. unfold lastRec. by destruct (last rounds). Qed.

(** C1: the recorder that drives round n+1 is the recorder round n filled,
    and its failures are exactly the cases appended for the failing events
    delivered to it during round n, in order: it starts empty, gains one
    case per delivered event that is not package-level and has the action
    [fail], and holds no other case.  The cases rerun in round n+1 are the
    filter's selection from these. *)
Theorem next_round_driven_by_recorded_failures (exec : Execution) (h : H) (w : W)
    (n : nat) (r r' : roundLog H) :
  sRounds (rerunFailed opts handler exec h w) !! n = Some r →
  sRounds (rerunFailed opts handler exec h w) !! S n = Some r' →
  rlRec r' = rlNextRec r
  ∧ failures (rlRec r') = recorded (roundDelivered r)
  ∧ rlSelected r' = rerunFailsFilter opts (recorded (roundDelivered r))
  ∧ (∀ tc, tc ∈ failures (rlRec r')
           ↔ ∃ ev exec', (ev, exec') ∈ roundDelivered r
                         ∧ testFailed ev = true ∧ tc = failedCase ev exec').
Proof.
  destruct (rerunFailed_loop exec h w) as (-> & _).
  intros Hn HSn.
  destruct (rerunRounds_spec opts handler (Z.to_nat (rerunFailsMaxAttempts opts))
              0 (newFailureRecorderFromExecution exec) (mkState w exec h [])
              ltac:(lia)) as (Hch & Hall & _).
  fold (loopOf opts handler exec h w) in Hch, Hall.
  pose proof (chained_lookup _ _ _ _ _ Hch Hn HSn) as Heq.
  rewrite Forall_lookup in Hall.
  destruct (Hall _ _ Hn) as (_ & _ & _ & _ & Hf & _).
  destruct (Hall _ _ HSn) as (_ & _ & Hsel & _).
  assert (Hfail : failures (rlRec r') = recorded (roundDelivered r))
    by (by rewrite Heq).
  split_and!; try done.
  - by rewrite Hsel, Hfail.
  - intros tc. rewrite Hfail. unfold recorded. rewrite list_elem_of_bind. split.
    + intros ([ev exec'] & Hin & Hd). cbn in Hin.
      destruct (testFailed ev) eqn:Hev; [| by apply elem_of_nil in Hin].
      apply list_elem_of_singleton in Hin. by exists ev, exec'.
    + intros (ev & exec' & Hd & Hev & ->). exists (ev, exec'). cbn.
      rewrite Hev. split; [by apply list_elem_of_singleton | done].
Qed.

(** C5: when [rerunFailed] leaves through its last statement, that is
    without a fatal error, the error it returns is the last completion error
    that was not nil among the invocations of the last round that ran: nil
    if all of them completed cleanly, and nil if no round ran. *)
Theorem returns_last_exit_error_of_final_round (exec : Execution) (h : H) (w : W) :
  sExit (rerunFailed opts handler exec h w) = AtEnd →
  sErr (rerunFailed opts handler exec h w)
  = match last (sRounds (rerunFailed opts handler exec h w)) with
    | Some r => lastSome (map ilExit (rlInvocations r))
    | None => None
    end.
Proof.
  intros Hend.
  destruct (rerunFailed_loop exec h w) as (-> & _ & Hl & _).
  destruct (Hl Hend) as [Hloop ->].
  destruct (rerunRounds_spec opts handler (Z.to_nat (rerunFailsMaxAttempts opts))
              0 (newFailureRecorderFromExecution exec) (mkState w exec h [])
              ltac:(lia)) as (_ & Hall & _ & Hrec & _).
  fold (loopOf opts handler exec h w) in Hall, Hrec.
  destruct (Hrec Hloop) as [-> _].
  rewrite lastRec_last.
  destruct (last (sRounds (loopOf opts handler exec h w))) as [r|] eqn:Hlast; [| done].
  rewrite Forall_forall in Hall.
  destruct (Hall r) as (_ & _ & _ & _ & _ & Herr); [| done].
  apply last_Some in Hlast as [l ->].
  apply elem_of_app. right. by apply list_elem_of_singleton.
Qed.

(** The bound on the rounds and the ways a session can end. *)
Lemma rerunFailed_rounds (exec : Execution) (h : H) (w : W) :
  (length (sRounds (rerunFailed opts handler exec h w))
   ≤ Z.to_nat (rerunFailsMaxAttempts opts))%nat
  ∧ Forall (λ r, failures (rlRec r) ≠ []) (sRounds (rerunFailed opts handler exec h w))
  ∧ (∀ n r, sRounds (rerunFailed opts handler exec h w) !! n = Some r →
            failures (rlNextRec r) = [] →
            length (sRounds (rerunFailed opts handler exec h w)) = S n)
  ∧ sExit (rerunFailed opts handler exec h w) ≠ OutOfFuel
  ∧ sExit (rerunFailed opts handler exec h w) ≠ Panicked
  ∧ (sExit (rerunFailed opts handler exec h w) = AtEnd →
     failures (sRec (rerunFailed opts handler exec h w)) = []
     ∨ length (sRounds (rerunFailed opts handler exec h w))
       = Z.to_nat (rerunFailsMaxAttempts opts)).
Proof.
  destruct (rerunFailed_loop exec h w) as (-> & -> & Hl & Hex & _ & _).
  destruct (rerunRounds_spec opts handler (Z.to_nat (rerunFailsMaxAttempts opts))
              0 (newFailureRecorderFromExecution exec) (mkState w exec h [])
              ltac:(lia)) as (Hch & Hall & Hlen & Hrec & _ & Hkind & Hfuel).
  fold (loopOf opts handler exec h w) in Hch, Hall, Hlen, Hrec, Hkind, Hfuel.
  rewrite Z.sub_0_r in Hlen, Hrec, Hfuel.
  specialize (Hfuel ltac:(lia)).
  split_and!.
  - done.
  - eapply Forall_impl; [exact Hall |]. by intros r (? & _).
  - intros n r Hn Hempty.
    destruct (sRounds (loopOf opts handler exec h w) !! S n) as [r'|] eqn:HSn.
    + pose proof (chained_lookup _ _ _ _ _ Hch Hn HSn) as Heq.
      rewrite Forall_lookup in Hall.
      destruct (Hall _ _ HSn) as (Hne & _). by rewrite Heq in Hne.
    + apply lookup_ge_None in HSn. apply lookup_lt_Some in Hn. lia.
  - destruct Hex as [-> | ->]; [done | done].
  - destruct Hex as [-> | ->]; [done |].
    intros Hp. rewrite Hp in Hkind. by destruct (Hkind eq_refl).
  - intros Hend. destruct (Hl Hend) as [Hloop _]. by destruct (Hrec Hloop).
Qed.

End Session.

(** Rounds 1 and 2 of the scripted session: [B] alone failed in round 1,
    and [B] alone drives round 2. *)
Lemma next_round_driven_by_recorded_failures_witness :
  ∃ r r',
    sRounds (rerunFailed Double.exampleOpts Double.logHandler Double.exampleExec
               [] Double.exampleWorld) !! 0%nat = Some r
    ∧ sRounds (rerunFailed Double.exampleOpts Double.logHandler Double.exampleExec
                 [] Double.exampleWorld) !! 1%nat = Some r'
    ∧ failures (rlRec r) = [mkTestCase "p" "A"; mkTestCase "p" "B"]
    ∧ failures (rlRec r') = recorded (roundDelivered r)
    ∧ failures (rlRec r') = [mkTestCase "p" "B"].
Proof.
  destruct (sRounds (rerunFailed Double.exampleOpts Double.logHandler
                       Double.exampleExec [] Double.exampleWorld) !! 0%nat)
    as [r|] eqn:H0; [| by vm_compute in H0].
  destruct (sRounds (rerunFailed Double.exampleOpts Double.logHandler
                       Double.exampleExec [] Double.exampleWorld) !! 1%nat)
    as [r'|] eqn:H1; [| by vm_compute in H1].
  exists r, r'. split; [done |]. split; [done |].
  destruct (next_round_driven_by_recorded_failures Double.exampleOpts
              Double.logHandler Double.exampleExec [] Double.exampleWorld
              0 r r' H0 H1) as (_ & Hf & _).
  split; [| split; [exact Hf |]].
  - vm_compute in H0. injection H0 as <-. reflexivity.
  - vm_compute in H1. injection H1 as <-. reflexivity.
Defined.

(** With one attempt allowed the session ends after round 1, in which the
    rerun of [B] exited with status 1: that error is returned. *)
Lemma returns_last_exit_error_of_final_round_witness :
  sExit (rerunFailed Double.oneAttemptOpts Double.logHandler Double.exampleExec
           [] Double.exampleWorld) = AtEnd
  ∧ length (sRounds (rerunFailed Double.oneAttemptOpts Double.logHandler
                       Double.exampleExec [] Double.exampleWorld)) = 1%nat
  ∧ sErr (rerunFailed Double.oneAttemptOpts Double.logHandler Double.exampleExec
            [] Double.exampleWorld) = Some (Err "exit status 1").
Proof.
  split; [vm_compute; reflexivity |]. split; [vm_compute; reflexivity |].
  rewrite (returns_last_exit_error_of_final_round Double.oneAttemptOpts
             Double.logHandler Double.exampleExec [] Double.exampleWorld);
    vm_compute; reflexivity.
Defined.

(** C6: the loop runs at most [rerunFailsMaxAttempts] rounds, runs no
    round on an empty failing set, so that a round that records no failure
    is the last one, and the function always returns.  When it leaves
    the loop through its condition, the failing set is empty or the rounds
    are used up.  In the session where [A] and [B] failed, [A] passes and [B]
    fails in round 1, and [B] passes in round 2, with 3 attempts allowed:
    exactly 2 rounds run, the first on [A] and [B], the second on [B] alone,
    and the error returned is nil. *)
Theorem rerun_rounds_bounded :
  (∀ (W H : Type) (C : Collaborators W) (opts : options)
     (handler : EventHandlerT H) (exec : Execution) (h : H) (w : W),
     (length (sRounds (rerunFailed opts handler exec h w))
      ≤ Z.to_nat (rerunFailsMaxAttempts opts))%nat
     ∧ Forall (λ r, failures (rlRec r) ≠ [])
              (sRounds (rerunFailed opts handler exec h w))
     ∧ (∀ n r, sRounds (rerunFailed opts handler exec h w) !! n = Some r →
               failures (rlNextRec r) = [] →
               length (sRounds (rerunFailed opts handler exec h w)) = S n)
     ∧ sExit (rerunFailed opts handler exec h w) ≠ OutOfFuel
     ∧ sExit (rerunFailed opts handler exec h w) ≠ Panicked
     ∧ (sExit (rerunFailed opts handler exec h w) = AtEnd →
        failures (sRec (rerunFailed opts handler exec h w)) = []
        ∨ length (sRounds (rerunFailed opts handler exec h w))
          = Z.to_nat (rerunFailsMaxAttempts opts)))
  ∧ (FailedOf Double.exampleExec = [mkTestCase "p" "A"; mkTestCase "p" "B"]
     ∧ rerunFailsMaxAttempts Double.exampleOpts = 3%Z
     ∧ length (sRounds (rerunFailed Double.exampleOpts Double.logHandler
                          Double.exampleExec [] Double.exampleWorld)) = 2%nat
     ∧ map (λ r, map ilCase (rlInvocations r))
           (sRounds (rerunFailed Double.exampleOpts Double.logHandler
                       Double.exampleExec [] Double.exampleWorld))
       = [[mkTestCase "p" "A"; mkTestCase "p" "B"]; [mkTestCase "p" "B"]]
     ∧ map (λ r, failures (rlNextRec r))
           (sRounds (rerunFailed Double.exampleOpts Double.logHandler
                       Double.exampleExec [] Double.exampleWorld))
       = [[mkTestCase "p" "B"]; []]
     ∧ Double.started (stWorld (sState (rerunFailed Double.exampleOpts Double.logHandler
                                   Double.exampleExec [] Double.exampleWorld)))
       = [["test"; "-json"; "-test.run=^A$"; "p"];
          ["test"; "-json"; "-test.run=^B$"; "p"];
          ["test"; "-json"; "-test.run=^B$"; "p"]]
     ∧ sExit (rerunFailed Double.exampleOpts Double.logHandler
                Double.exampleExec [] Double.exampleWorld) = AtEnd
     ∧ sErr (rerunFailed Double.exampleOpts Double.logHandler
               Double.exampleExec [] Double.exampleWorld) = None).
Proof.
  split.
  - intros W H C opts handler exec h w. apply rerunFailed_rounds.
  - split_and!; vm_compute; reflexivity.
Qed.

(** Round 2 of the scripted session records no failure and is the last. *)
Lemma rerun_rounds_bounded_witness :
  ∃ r, sRounds (rerunFailed Double.exampleOpts Double.logHandler
                  Double.exampleExec [] Double.exampleWorld) !! 1%nat = Some r
       ∧ failures (rlNextRec r) = []
       ∧ length (sRounds (rerunFailed Double.exampleOpts Double.logHandler
                            Double.exampleExec [] Double.exampleWorld)) = 2%nat.
Proof.
  destruct (sRounds (rerunFailed Double.exampleOpts Double.logHandler
                       Double.exampleExec [] Double.exampleWorld) !! 1%nat)
    as [r|] eqn:H1; [| by vm_compute in H1].
  exists r. split; [done |].
  assert (Hempty : failures (rlNextRec r) = []).
  { vm_compute in H1. injection H1 as <-. reflexivity. }
  split; [exact Hempty |].
  destruct rerun_rounds_bounded as [Hgen _].
  destruct (Hgen _ _ _ Double.exampleOpts Double.logHandler Double.exampleExec
              [] Double.exampleWorld) as (_ & _ & Hstop & _).
  exact (Hstop 1%nat r H1 Hempty).
Defined.

(** C4 (the code at the failing input): coverage is on, the rerun's profile
    [cover.out.0.0] is parsed into memory and its removal fails.
    [rerunFailed] returns the removal error at once: the parsed profile is
    in [rerunProfiles], and [cover.out] still holds the count 3 of the first
    run, where the same session with a removable file ends with the merged
    count 8. *)
Lemma removal_failure_skips_the_merge :
  sExit (rerunFailed Double.coverOpts Double.logHandler Double.coverExec []
           Double.lockedWorld) = AtRemove
  ∧ sErr (rerunFailed Double.coverOpts Double.logHandler Double.coverExec []
            Double.lockedWorld)
    = Some (Errorf "failed to remove coverprofile cover.out.0.0 after combined with the main profile: remove cover.out.0.0: permission denied")
  ∧ stProfiles (sState (rerunFailed Double.coverOpts Double.logHandler
                          Double.coverExec [] Double.lockedWorld))
    = [[Double.blk 5]]
  ∧ Double.covFiles (stWorld (sState (rerunFailed Double.coverOpts Double.logHandler
                                        Double.coverExec [] Double.lockedWorld)))
      !! "cover.out" = Some [[Double.blk 3]]
  ∧ sExit (rerunFailed Double.coverOpts Double.logHandler Double.coverExec []
             Double.coverWorld) = AtEnd
  ∧ Double.covFiles (stWorld (sState (rerunFailed Double.coverOpts Double.logHandler
                                        Double.coverExec [] Double.coverWorld)))
    = {[ "cover.out" := [[Double.blk 8]] ]}.
Proof. split_and!; vm_compute; reflexivity. Qed.

(** *** Merging coverage profiles *)

Section Coverage.

Import coverprofile.

Lemma countOf_cons k b bs :
  countOf k (b :: bs)
  = ((if decide (blockKey b = k) then cover.count b else 0) + countOf k bs)%Z.
Proof. reflexivity. Qed.

Lemma countOf_app k bs1 bs2 :
  countOf k (bs1 ++ bs2) = (countOf k bs1 + countOf k bs2)%Z.
Proof.
  induction bs1 as [|b bs1 IH]; [done |].
  rewrite <- app_comm_cons, !countOf_cons, IH. lia.
Qed.

Lemma blockKey_addCount a n : blockKey (addCount a n) = blockKey a.
Proof. reflexivity. Qed.

Lemma countOf_addBlock k b acc :
  countOf k (addBlock b acc) = (countOf k acc + countOf k [b])%Z.
Proof.
  induction acc as [|a acc IH]; [rewrite !countOf_cons; cbn; lia |].
  cbn [addBlock]. destruct (decide (blockKey a = blockKey b)) as [Heq | Hne].
  - rewrite !countOf_cons, blockKey_addCount, <- Heq.
    change (cover.count (addCount a (cover.count b))) with (cover.count a + cover.count b)%Z.
    change (countOf k []) with 0%Z.
    destruct (decide (blockKey a = k)); lia.
  - rewrite !(countOf_cons k a), IH. lia.
Qed.

Lemma countOf_foldl k bs : ∀ acc,
  countOf k (foldl (λ acc b, addBlock b acc) acc bs)
  = (countOf k acc + countOf k bs)%Z.
Proof.
  induction bs as [|b bs IH]; intros acc; cbn [foldl].
  - cbn. lia.
  - rewrite IH, countOf_addBlock, !(countOf_cons k b). cbn. lia.
Qed.

Lemma keys_addBlock b acc :
  map blockKey (addBlock b acc)
  = if decide (blockKey b ∈ map blockKey acc) then map blockKey acc
    else map blockKey acc ++ [blockKey b].
Proof.
  induction acc as [|a acc IH]; cbn [addBlock map].
  - rewrite decide_False; [done | apply not_elem_of_nil].
  - destruct (decide (blockKey a = blockKey b)) as [Heq | Hne].
    + rewrite decide_True; [done | rewrite Heq; apply list_elem_of_here].
    + cbn [map]. rewrite IH.
      destruct (decide (blockKey b ∈ map blockKey acc)) as [Hin | Hnin].
      * rewrite decide_True; [done | by apply list_elem_of_further].
      * rewrite decide_False; [done |].
        intros [? | ?]%elem_of_cons; congruence.
Qed.

Lemma keys_foldl bs : ∀ acc,
  NoDup (map blockKey acc) →
  NoDup (map blockKey (foldl (λ acc b, addBlock b acc) acc bs))
  ∧ ∀ k, k ∈ map blockKey (foldl (λ acc b, addBlock b acc) acc bs)
         ↔ k ∈ map blockKey acc ∨ k ∈ map blockKey bs.
Proof.
  induction bs as [|b bs IH]; intros acc Hnd; cbn [foldl map].
  - split; [done |]. intros k. rewrite elem_of_nil. tauto.
  - assert (Hnd' : NoDup (map blockKey (addBlock b acc))).
    { rewrite keys_addBlock. case_decide; [done |].
      apply NoDup_app. split_and!; [done | | apply NoDup_singleton].
      intros k Hk ->%list_elem_of_singleton. done. }
    destruct (IH _ Hnd') as [H1 H2]. split; [done |].
    intros k. rewrite H2, keys_addBlock, elem_of_cons.
    case_decide as Hin.
    + split; [tauto |]. intros [? | [-> | ?]]; tauto.
    + rewrite elem_of_app, list_elem_of_singleton. tauto.
Qed.

Lemma countOf_unique bs b :
  NoDup (map blockKey bs) → b ∈ bs → countOf (blockKey b) bs = cover.count b.
Proof.
  induction bs as [|a bs IH]; intros Hnd Hin; [by apply elem_of_nil in Hin |].
  cbn [map] in Hnd. apply NoDup_cons in Hnd as [Hna Hnd].
  assert (Hzero : ∀ l, blockKey a ∉ map blockKey l → countOf (blockKey a) l = 0%Z).
  { induction l as [|c l IHl]; intros Hc; [done |].
    cbn [map] in Hc. apply not_elem_of_cons in Hc as [Hne Hc].
    rewrite countOf_cons, decide_False by done. rewrite IHl; done. }
  apply elem_of_cons in Hin as [-> | Hin].
  - rewrite countOf_cons, decide_True by done. rewrite Hzero; [lia | done].
  - rewrite countOf_cons, decide_False.
    + rewrite IH; [lia | done | done].
    + intros Heq. apply Hna. rewrite Heq. by apply list_elem_of_fmap_2.
Qed.

Lemma addBlock_keeps b a acc :
  a ∈ acc → blockKey a ≠ blockKey b → a ∈ addBlock b acc.
Proof.
  induction acc as [|c acc IH]; intros Hin Hne; [by apply elem_of_nil in Hin |].
  cbn [addBlock]. apply elem_of_cons in Hin as [-> | Hin].
  - rewrite decide_False by done. apply list_elem_of_here.
  - case_decide; apply list_elem_of_further; [done | by apply IH].
Qed.

Lemma addBlock_new b acc :
  blockKey b ∉ map blockKey acc → b ∈ addBlock b acc.
Proof.
  induction acc as [|c acc IH]; intros Hnin; cbn [addBlock].
  - apply list_elem_of_here.
  - cbn [map] in Hnin. apply not_elem_of_cons in Hnin as [Hne Hnin].
    rewrite decide_False by done. apply list_elem_of_further. by apply IH.
Qed.

(** A block that is the only one of its key passes through the merge. *)
Lemma foldl_passes_through b bs : ∀ acc,
  ((b ∈ acc ∧ filter (λ a, blockKey a = blockKey b) bs = [])
   ∨ ((blockKey b ∉ map blockKey acc)
      ∧ filter (λ a, blockKey a = blockKey b) bs = [b])) →
  b ∈ foldl (λ acc b, addBlock b acc) acc bs.
Proof.
  induction bs as [|c bs IH]; intros acc Hcase; cbn [foldl].
  - destruct Hcase as [[Hin _] | [_ Hf]]; [done | discriminate].
  - apply IH. rewrite filter_cons in Hcase.
    destruct (decide (blockKey c = blockKey b)) as [Heq | Hne].
    + destruct Hcase as [[_ Hf] | [Hnin Hf]]; [discriminate |].
      injection Hf as -> Hf. left. split; [by apply addBlock_new | done].
    + destruct Hcase as [[Hin Hf] | [Hnin Hf]].
      * left. split; [apply addBlock_keeps; [done | congruence] | done].
      * right. split; [| done]. rewrite keys_addBlock.
        case_decide; [done |]. rewrite elem_of_app, list_elem_of_singleton.
        intros [? | ?]; [done | congruence].
Qed.

(** C8: merging sums the execution counts per block key.  The merged
    blocks have pairwise different keys, the keys are those of the blocks
    merged, and the count of a merged block is the sum of the counts of all
    the blocks of its key (counts 3 and 5 give 8); a block that is the only
    one of its key is in the result as it was; and [Combine] writes the
    merge of the original profile and the partial ones over the original
    file. *)
Theorem Combine_sums_counts_per_key :
  (∀ main others files mainProfiles,
     files !! main = Some mainProfiles →
     Combine main others files
     = (None, <[main := [mergeBlocks (concat (mainProfiles ++ others))]]> files))
  ∧ (∀ bs, NoDup (map blockKey (mergeBlocks bs)))
  ∧ (∀ bs k, k ∈ map blockKey (mergeBlocks bs) ↔ k ∈ map blockKey bs)
  ∧ (∀ bs b, b ∈ mergeBlocks bs → cover.count b = countOf (blockKey b) bs)
  ∧ (∀ bs b, filter (λ a, blockKey a = blockKey b) bs = [b] → b ∈ mergeBlocks bs)
  ∧ mergeBlocks [Double.blk 3; mkBlock "b.go" 1 1 2 2 1 7; Double.blk 5]
    = [Double.blk 8; mkBlock "b.go" 1 1 2 2 1 7].
Proof.
  split_and!.
  - intros main others files mainProfiles Hmain. unfold Combine. by rewrite Hmain.
  - intros bs. apply (keys_foldl bs []). apply NoDup_nil_2.
  - intros bs k. destruct (keys_foldl bs [] NoDup_nil_2) as [_ Hk].
    unfold mergeBlocks. rewrite Hk. cbn. rewrite elem_of_nil. tauto.
  - intros bs b Hin.
    rewrite <- (countOf_unique (mergeBlocks bs) b);
      [| apply (keys_foldl bs []), NoDup_nil_2 | done].
    unfold mergeBlocks. rewrite countOf_foldl. cbn. lia.
  - intros bs b Hf. apply foldl_passes_through. right.
    split; [apply not_elem_of_nil | done].
  - reflexivity.
Qed.

(** Counts 3 and 5 of one block merge to 8 in [cover.out]; the block of
    [b.go], met once, passes through. *)
Lemma Combine_sums_counts_per_key_witness :
  Combine "cover.out" [[Double.blk 5]; [mkBlock "b.go" 1 1 2 2 1 7]]
          {[ "cover.out" := [[Double.blk 3]] ]}
  = (None, {[ "cover.out" := [[Double.blk 8; mkBlock "b.go" 1 1 2 2 1 7]] ]})
  ∧ mkBlock "b.go" 1 1 2 2 1 7
    ∈ mergeBlocks [Double.blk 3; Double.blk 5; mkBlock "b.go" 1 1 2 2 1 7].
Proof.
  destruct Combine_sums_counts_per_key as (Hc & _ & _ & _ & Hpass & _).
  split.
  - rewrite (Hc "cover.out" _ _ [[Double.blk 3]]); [| reflexivity].
    vm_compute. reflexivity.
  - apply Hpass. reflexivity.
Defined.

End Coverage.

(** *** The report *)

Section ReportFacts.

Context {W : Type} `{!Collaborators W}.

Lemma countFailed_spec failure tcs : ∀ counts,
  countFailed failure tcs counts
  = mkCounts (total counts + runsOf failure tcs) (failed counts + runsOf failure tcs).
Proof.
  unfold countFailed, runsOf.
  induction tcs as [|tc tcs IH]; intros counts; cbn [foldl].
  - destruct counts. cbn. f_equal; lia.
  - rewrite IH, filter_cons. case_decide; cbn [total failed length]; f_equal; lia.
Qed.

Lemma countPassed_spec failure tcs : ∀ counts,
  countPassed failure tcs counts
  = mkCounts (total counts + runsOf failure tcs) (failed counts).
Proof.
  unfold countPassed, runsOf.
  induction tcs as [|tc tcs IH]; intros counts; cbn [foldl].
  - destruct counts. cbn. f_equal; lia.
  - rewrite IH, filter_cons. case_decide; cbn [total failed length]; f_equal; lia.
Qed.

Lemma reportStep_seen exec names results failure c :
  results !! reportName failure = Some c →
  reportStep exec (names, results) failure = (names, results).
Proof. intros Hf. unfold reportStep. cbn [fst snd]. by rewrite Hf. Qed.

Lemma reportStep_new exec names results failure :
  results !! reportName failure = None →
  reportStep exec (names, results) failure
  = (names ++ [reportName failure],
     <[reportName failure := tallyOf exec failure]> results).
Proof.
  intros Hf. unfold reportStep. cbn [fst snd]. rewrite Hf.
  rewrite countFailed_spec, countPassed_spec. cbn [total failed].
  unfold tallyOf. do 3 f_equal; lia.
Qed.

(** The loop over the failures keeps [names] free of repetitions and in
    step with the keys of [results], adds the names of the failures it
    meets, and gives each new name the tally of the first failure that
    bears it. *)
Lemma reportTally_fold (exec : Execution) (fs : list TestCase) :
  ∀ (names : list string) (results : gmap string testCaseCounts),
    NoDup names →
    (∀ name, name ∈ names ↔ is_Some (results !! name)) →
    NoDup (foldl (reportStep exec) (names, results) fs).1
    ∧ (∀ name, name ∈ (foldl (reportStep exec) (names, results) fs).1
               ↔ name ∈ names ∨ name ∈ map reportName fs)
    ∧ (∀ name, (foldl (reportStep exec) (names, results) fs).2 !! name
               = match results !! name with
                 | Some c => Some c
                 | None => tallyOf exec <$> firstNamed name fs
                 end).
Proof.
  induction fs as [|f fs IH]; intros names results Hnd Hdom; cbn [foldl].
  - split_and!; [done | |].
    + intros name. cbn. rewrite elem_of_nil. tauto.
    + intros name. cbn. by destruct (results !! name).
  - destruct (results !! reportName f) as [c|] eqn:Hf.
    + rewrite (reportStep_seen _ _ _ _ _ Hf).
      destruct (IH names results Hnd Hdom) as (I1 & I2 & I3).
      split_and!; [done | |].
      * intros name. rewrite I2. cbn [map]. rewrite elem_of_cons.
        split; [tauto |]. intros [? | [-> | ?]]; [tauto | | tauto].
        left. apply Hdom. by rewrite Hf.
      * intros name. rewrite I3. destruct (results !! name) eqn:Hn; [done |].
        unfold firstNamed. rewrite filter_cons, decide_False; [done |].
        intros Heq. congruence.
    + assert (Hnew : reportName f ∉ names).
      { intros Hin%Hdom. rewrite Hf in Hin. by apply is_Some_None in Hin. }
      rewrite (reportStep_new _ _ _ _ Hf).
      destruct (IH (names ++ [reportName f])
                   (<[reportName f := tallyOf exec f]> results))
        as (I1 & I2 & I3).
      { apply NoDup_app. split_and!; [done | | apply NoDup_singleton].
        intros x Hx ->%list_elem_of_singleton. done. }
      { intros name. rewrite elem_of_app, list_elem_of_singleton, lookup_insert_is_Some.
        rewrite (Hdom name). split.
        - intros [? | ->]; [| by left].
          destruct (decide (reportName f = name)); [by left | by right].
        - intros [<- | [_ ?]]; [by right | by left]. }
      split_and!; [done | |].
      * intros name. rewrite I2, elem_of_app, list_elem_of_singleton.
        cbn [map]. rewrite elem_of_cons. tauto.
      * intros name. rewrite I3. unfold firstNamed. rewrite filter_cons.
        destruct (decide (reportName f = name)) as [<- | Hne].
        -- by rewrite lookup_insert_eq, Hf.
        -- by rewrite lookup_insert_ne.
Qed.

Lemma reportRows_names (exec : Execution) :
  map fst (reportRows exec) = merge_sort String.le (reportTally exec).1.
Proof.
  unfold reportRows. destruct (reportTally exec) as [names results]. cbn [fst].
  rewrite <- list_fmap_compose. apply list_fmap_id.
Qed.

Lemma filter_unique_row (name : string) (rows : list (string * testCaseCounts)) :
  NoDup (map fst rows) → name ∈ map fst rows →
  length (filter (λ row, row.1 = name) rows) = 1%nat.
Proof.
  induction rows as [|row rows IH]; intros Hnd Hin; [by apply elem_of_nil in Hin |].
  cbn [map] in Hnd, Hin. apply NoDup_cons in Hnd as [Hnin Hnd].
  rewrite filter_cons. destruct (decide (row.1 = name)) as [Heq | Hne].
  - cbn [length]. f_equal.
    destruct (filter (λ row, row.1 = name) rows) as [|row' l] eqn:Hfl; [done |].
    exfalso.
    assert (Hin' : row' ∈ filter (λ row, row.1 = name) rows)
      by (rewrite Hfl; apply list_elem_of_here).
    apply list_elem_of_filter in Hin' as [Hname Hrow'].
    apply Hnin. rewrite Heq, <- Hname. by apply list_elem_of_fmap_2.
  - apply IH; [done |]. apply elem_of_cons in Hin as [? | ?]; [congruence | done].
Qed.

(** C9: in the report every name [package.test] borne by a failure of the
    final execution is on exactly one row, and no other name is; the row
    shows the tally of the first failure that bears the name (later ones
    are skipped), and on every row the total runs are at least the failed
    runs.  The rows are in the order of their names, and they are what
    [writeRerunFailsReport] writes, one line each, into the file it
    creates. *)
Theorem report_counts_each_key_once (opts : options) (exec : Execution) (w : W) :
  NoDup (map fst (reportRows exec))
  ∧ (∀ failure, failure ∈ FailedOf exec →
       length (filter (λ row, row.1 = reportName failure) (reportRows exec)) = 1%nat)
  ∧ (∀ row, row ∈ reportRows exec →
       ∃ failure, failure ∈ FailedOf exec
                  ∧ firstNamed row.1 (FailedOf exec) = Some failure
                  ∧ row.2 = tallyOf exec failure)
  ∧ (∀ row, row ∈ reportRows exec → (0 ≤ failed row.2 ≤ total row.2)%Z)
  ∧ Sorted String.le (map fst (reportRows exec))
  ∧ (rerunFailsMaxAttempts opts ≠ 0%Z → rerunFailsReportFile opts ≠ "" →
     writeRerunFailsReport opts exec w
     = match Create (rerunFailsReportFile opts) w with
       | (Some err, w') => (Some err, w')
       | (None, w') =>
           (None, foldl (λ w row, WriteString (rerunFailsReportFile opts)
                                              (reportLine row) w)
                        w' (reportRows exec))
       end).
Proof.
  destruct (reportTally_fold exec (FailedOf exec) [] ∅ NoDup_nil_2)
    as (Hnd & Hin & Hres).
  { intros name. rewrite elem_of_nil, lookup_empty. split; [done |].
    by intros ?%is_Some_None. }
  fold (reportTally exec) in Hnd, Hin, Hres.
  assert (Hnames : ∀ name, name ∈ map fst (reportRows exec)
                           ↔ name ∈ map reportName (FailedOf exec)).
  { intros name. rewrite reportRows_names, merge_sort_Permutation, Hin.
    rewrite elem_of_nil. tauto. }
  assert (Hrow : ∀ row, row ∈ reportRows exec →
            ∃ failure, failure ∈ FailedOf exec
                       ∧ firstNamed row.1 (FailedOf exec) = Some failure
                       ∧ row.2 = tallyOf exec failure).
  { intros row Hr.
    assert (Hn : row.1 ∈ map reportName (FailedOf exec)).
    { apply Hnames. by apply list_elem_of_fmap_2. }
    unfold reportRows in Hr. destruct (reportTally exec) as [names results].
    apply list_elem_of_fmap in Hr as (name & -> & _). cbn [fst snd] in *.
    rewrite Hres, lookup_empty.
    apply list_elem_of_fmap in Hn as (f & Hname & Hf).
    destruct (firstNamed name (FailedOf exec)) as [g|] eqn:Hg.
    - exists g. split_and!; try done.
      unfold firstNamed in Hg. apply head_Some_elem_of in Hg.
      by apply list_elem_of_filter in Hg as [_ ?].
    - unfold firstNamed in Hg. apply head_None in Hg.
      assert (f ∈ filter (λ f, reportName f = name) (FailedOf exec))
        by (by apply list_elem_of_filter).
      rewrite Hg in *. by apply elem_of_nil in H. }
  split_and!.
  - rewrite reportRows_names. by rewrite merge_sort_Permutation.
  - intros failure Hf. apply filter_unique_row.
    + rewrite reportRows_names. by rewrite merge_sort_Permutation.
    + apply Hnames. by apply list_elem_of_fmap_2.
  - exact Hrow.
  - intros row Hr. destruct (Hrow row Hr) as (failure & _ & _ & ->).
    unfold tallyOf, runsOf. cbn [total failed]. lia.
  - rewrite reportRows_names. apply Sorted_merge_sort. apply _.
  - intros Hmax Hfile. unfold writeRerunFailsReport.
    rewrite !bool_decide_eq_false_2 by done. cbn [orb].
    by destruct (Create _ w) as [[err|] w'].
Qed.

End ReportFacts.

(** [A] failed twice and passed once, [B] failed once: two rows, and the
    text written to the report file. *)
Lemma report_counts_each_key_once_witness :
  reportRows (Double.execOf "p" ["A"; "B"; "A"] ["A"])
  = [("p.A", mkCounts 3 2); ("p.B", mkCounts 1 1)]
  ∧ length (filter (λ row, row.1 = "p.A")
              (reportRows (Double.execOf "p" ["A"; "B"; "A"] ["A"]))) = 1%nat
  ∧ Double.textFiles
      (writeRerunFailsReport (mkOptions [] 2 false "report.txt")
         (Double.execOf "p" ["A"; "B"; "A"] ["A"])
         (Double.mkWorld [] ∅ [] [] ∅)).2
    = {[ "report.txt" := "p.A: 3 runs, 2 failures" +:+ newline
                          +:+ "p.B: 1 runs, 1 failures" +:+ newline ]}.
Proof.
  destruct (report_counts_each_key_once (mkOptions [] 2 false "report.txt")
              (Double.execOf "p" ["A"; "B"; "A"] ["A"])
              (Double.mkWorld [] ∅ [] [] ∅))
    as (_ & Honce & _ & _ & _ & Hwrite).
  split; [vm_compute; reflexivity |]. split.
  - apply (Honce (mkTestCase "p" "A")). vm_compute.
    apply list_elem_of_here.
  - rewrite Hwrite; [vm_compute; reflexivity | discriminate | discriminate].
Defined.

(* ===================================================================== *)
(** ** Part III: further properties of the code *)
(* ===================================================================== *)

(** *** The run flag determines the test *)

Section RunFlagMore.

Import GoStrings.

Lemma Contains_app a b sep :
  Contains (a +:+ b) sep = Contains a sep || Contains b sep.
Proof.
  induction a as [|x a IH]; [done |].
  rewrite append_cons. cbn [Contains]. rewrite IH. by rewrite orb_assoc.
Qed.

Lemma QuoteMeta_no_slash p :
  Contains p "/"%char = false → Contains (QuoteMeta p) "/"%char = false.
Proof.
  induction p as [|b p IH]; [done |].
  cbn [Contains QuoteMeta]. intros [Hb Hp]%orb_false_iff.
  destruct (special b); cbn [Contains]; rewrite Hb, (IH Hp); done.
Qed.

Lemma anchored_no_slash p :
  Contains p "/"%char = false → Contains (anchored p) "/"%char = false.
Proof.
  intros Hp. unfold anchored. rewrite !Contains_app, (QuoteMeta_no_slash _ Hp). done.
Qed.

Lemma Split_parts_no_sep s sep :
  Forall (λ p, Contains p sep = false) (Split s sep).
Proof.
  induction s as [|b s IH]; cbn [Split].
  - by repeat constructor.
  - destruct (Ascii.eqb b sep) eqn:Hb; [by constructor |].
    destruct (Split s sep) as [|p ps]; [by repeat constructor; cbn; rewrite Hb |].
    inversion IH as [|? ? Hp Hps]; subst.
    constructor; [| done]. cbn [Contains]. by rewrite Hb, Hp.
Qed.

(** Joining the parts of a split gives the string back. *)
Lemma concat_Split s sep :
  String.concat (String sep EmptyString) (Split s sep) = s.
Proof.
  induction s as [|b s IH]; [done |].
  cbn [Split]. destruct (Ascii.eqb b sep) eqn:Hb.
  - apply Ascii.eqb_eq in Hb as ->.
    destruct (Split s sep) as [|p ps] eqn:Hs; [by apply Split_nonempty in Hs |].
    change (String.concat (String sep "") ("" :: p :: ps))
      with ("" +:+ String sep "" +:+ String.concat (String sep "") (p :: ps)).
    by rewrite IH.
  - destruct (Split s sep) as [|p ps] eqn:Hs; [by apply Split_nonempty in Hs |].
    destruct ps as [|q qs].
    + cbn [String.concat] in *. by rewrite IH.
    + change (String.concat (String sep "") (String b p :: q :: qs))
        with (String b p +:+ String sep "" +:+ String.concat (String sep "") (q :: qs)).
      change (String.concat (String sep "") (p :: q :: qs))
        with (p +:+ String sep "" +:+ String.concat (String sep "") (q :: qs)) in IH.
      by rewrite append_cons, IH.
Qed.

Lemma append_last_inj (x y : string) (c : ascii) :
  x +:+ String c "" = y +:+ String c "" → x = y.
Proof.
  revert y. induction x as [|a x IH]; intros [|b y]; rewrite ?append_cons, ?append_nil_l.
  - done.
  - intros [= <- Hy]. by destruct y.
  - intros [= -> Hx]. by destruct x.
  - intros [= -> Hxy]. by rewrite (IH y Hxy).
Qed.

Lemma QuoteMeta_inj a b : QuoteMeta a = QuoteMeta b → a = b.
Proof.
  intros Hq. apply (literal_match_QuoteMeta b a).
  rewrite <- Hq. by apply literal_match_QuoteMeta.
Qed.

Lemma anchored_inj a b : anchored a = anchored b → a = b.
Proof.
  unfold anchored. intros Hq%(inj (String.app "^")).
  by apply QuoteMeta_inj, (append_last_inj _ _ "$"%char).
Qed.

Lemma map_anchored_inj (l1 l2 : list string) :
  map anchored l1 = map anchored l2 → l1 = l2.
Proof.
  revert l2. induction l1 as [|a l1 IH]; intros [|b l2]; cbn [map]; try done.
  intros Hm.
  assert (Ha : anchored a = anchored b)
    by (apply (inj Some); exact (f_equal head Hm)).
  assert (Hl : map anchored l1 = map anchored l2) by exact (f_equal tail Hm).
  by rewrite (anchored_inj _ _ Ha), (IH _ Hl).
Qed.

(** X1: the flag determines the test name: two test names with the same
    [-test.run] flag are the same name, so a rerun never selects by the
    pattern of another failing test. *)
Theorem runFlag_determines_test (a b : testjson.TestName) :
  goTestRunFlagForTestCase a = goTestRunFlagForTestCase b → a = b.
Proof.
  rewrite !flag_is_anchoredPattern.
  intros Hp%(inj (String.app "-test.run=")). unfold anchoredPattern in Hp.
  assert (Hsplit : ∀ t, Split (String.concat "/" (map anchored (Split t "/"%char))) "/"%char
                        = map anchored (Split t "/"%char)).
  { intros t. pose proof (Split_parts_no_sep t "/"%char) as Hall.
    destruct (Split t "/"%char) as [|p ps] eqn:Hs; [by apply Split_nonempty in Hs |].
    cbn [map]. apply Split_concat.
    change (anchored p :: map anchored ps) with (map anchored (p :: ps)).
    apply Forall_fmap. eapply Forall_impl; [exact Hall |].
    intros x Hx. by apply anchored_no_slash. }
  pose proof (Hsplit a) as Ha. rewrite Hp, Hsplit in Ha.
  apply map_anchored_inj in Ha.
  rewrite <- (concat_Split a "/"%char), <- (concat_Split b "/"%char). by rewrite Ha.
Qed.

(** The theorem at two spellings of one name. *)
Lemma runFlag_determines_test_witness :
  String.concat "/" ["TestA"; "x.y"] = "TestA/x.y".
Proof.
  apply (runFlag_determines_test (String.concat "/" ["TestA"; "x.y"]) "TestA/x.y").
  reflexivity.
Defined.

End RunFlagMore.

(** *** Rerun arguments and the filter *)

Section RerunArgs.

Import GoStrings.

Lemma flag_not_empty (t : testjson.TestName) : goTestRunFlagForTestCase t ≠ "".
Proof. by rewrite flag_is_anchoredPattern. Qed.

(** X2: [Args] lists the fields that are not empty, in the order run flag,
    package, coverage flag, and nothing else: an empty field gives no
    (empty) argument. *)
Theorem Args_lists_nonempty_fields (o : rerunOpts) :
  Args o = filter (λ s, s ≠ "") [runFlag o; pkg o; coverprofileFlag o]
  ∧ Forall (λ s, s ≠ "") (Args o)
  ∧ (length (Args o) ≤ 3)%nat.
Proof.
  assert (Heq : Args o = filter (λ s, s ≠ "") [runFlag o; pkg o; coverprofileFlag o]).
  { unfold Args. rewrite !filter_cons, filter_nil.
    repeat case_bool_decide; repeat case_decide; first [done | congruence]. }
  split; [done |]. rewrite Heq. split.
  - apply Forall_forall. by intros s [? _]%list_elem_of_filter.
  - etrans; [apply length_filter | done].
Qed.

Lemma withCoverprofile_sets_last_argument_aux (o : rerunOpts) (path : string) :
  Args (withCoverprofile o path)
  = Args (mkRerunOpts (runFlag o) (pkg o) "") ++ ["-coverprofile=" +:+ path]
  ∧ (coverprofileFlag o = "" →
     Args (mkRerunOpts (runFlag o) (pkg o) "") = Args o).
Proof.
  split.
  - unfold Args, withCoverprofile. cbn [runFlag pkg coverprofileFlag].
    rewrite (bool_decide_eq_false_2 ("" ≠ "")) by (by intros []).
    rewrite (bool_decide_eq_true_2 ("-coverprofile=" +:+ path ≠ "")) by done.
    done.
  - intros Hc. destruct o as [r p c]. cbn in Hc. by subst.
Qed.

(** X3: the arguments of the rerun of a case are its run flag, which is
    never empty, followed by the package when the case names one; there is
    no coverage flag until [withCoverprofile] adds it, and with it the
    arguments end in that flag. *)
Theorem newRerunOptsFromTestCase_args (tc : TestCase) (path : string) :
  Args (newRerunOptsFromTestCase tc)
  = goTestRunFlagForTestCase (tcTest tc)
    :: (if decide (tcPackage tc = "") then [] else [tcPackage tc])
  ∧ Args (withCoverprofile (newRerunOptsFromTestCase tc) path)
    = Args (newRerunOptsFromTestCase tc) ++ ["-coverprofile=" +:+ path].
Proof.
  assert (Hargs : Args (newRerunOptsFromTestCase tc)
                  = goTestRunFlagForTestCase (tcTest tc)
                    :: (if decide (tcPackage tc = "") then [] else [tcPackage tc])).
  { unfold Args, newRerunOptsFromTestCase. cbn [runFlag pkg coverprofileFlag].
    rewrite (bool_decide_eq_true_2 _ (flag_not_empty (tcTest tc))).
    rewrite (bool_decide_eq_false_2 ("" ≠ "")) by (by intros []).
    destruct (decide (tcPackage tc = "")) as [Hp | Hp].
    - by rewrite bool_decide_eq_false_2 by (by intros []).
    - by rewrite bool_decide_eq_true_2 by done. }
  split; [done |].
  destruct (withCoverprofile_sets_last_argument_aux (newRerunOptsFromTestCase tc) path)
    as [-> Hsame]. by rewrite Hsame.
Qed.

End RerunArgs.

Section RootOnly.

(** X4: under the root-only policy the filter keeps exactly the failing
    cases that are not subtests, in their order and as often as they occur;
    filtering twice changes nothing, and a list of subtests alone is
    filtered to nothing. *)
Theorem rootOnly_filter_keeps_roots (o : options) (tcs tcs' : list TestCase) :
  rerunFailsRunRootCases o = true →
  (∀ tc, tc ∈ rerunFailsFilter o tcs ↔ tc ∈ tcs ∧ IsSubTest (tcTest tc) = false)
  ∧ rerunFailsFilter o tcs `sublist_of` tcs
  ∧ rerunFailsFilter o (tcs ++ tcs') = rerunFailsFilter o tcs ++ rerunFailsFilter o tcs'
  ∧ rerunFailsFilter o (rerunFailsFilter o tcs) = rerunFailsFilter o tcs
  ∧ (Forall (λ tc, IsSubTest (tcTest tc) = true) tcs → rerunFailsFilter o tcs = []).
Proof.
  intros Hroot. unfold rerunFailsFilter. rewrite Hroot. split_and!.
  - intros tc. rewrite list_elem_of_filter. tauto.
  - apply sublist_filter.
  - apply filter_app.
  - by apply list_filter_filter_r.
  - intros Hall. induction Hall as [|tc l Hsub _ IH]; [done |].
    rewrite filter_cons, decide_False, IH; [done | by rewrite Hsub].
Qed.

(** The failures [TestFoo] and [TestFoo/bar]: the root alone is kept. *)
Lemma rootOnly_filter_keeps_roots_witness :
  rerunFailsFilter (mkOptions [] 2 true "")
    [mkTestCase "p" "TestFoo"; mkTestCase "p" "TestFoo/bar"]
  = [mkTestCase "p" "TestFoo"]
  ∧ rerunFailsFilter (mkOptions [] 2 true "") [mkTestCase "p" "TestFoo/bar"] = [].
Proof.
  split; [reflexivity |].
  apply (rootOnly_filter_keeps_roots (mkOptions [] 2 true "")
           [mkTestCase "p" "TestFoo/bar"] [] eq_refl).
  by repeat constructor.
Defined.

End RootOnly.

(** *** More on the rerun loop *)

Section LoopMore.

Context {W H : Type} `{!Collaborators W}.
Variable opts : options.
Variable handler : EventHandlerT H.

Lemma feed_app (h : H) d1 d2 :
  feed handler h (d1 ++ d2) = feed handler (feed handler h d1) d2.
Proof. unfold feed. apply foldl_app. Qed.

Lemma lastShown_app exec d1 d2 :
  lastShown exec (d1 ++ d2) = lastShown (lastShown exec d1) d2.
Proof. unfold lastShown. apply foldl_app. Qed.

(** A scan leaves the handler fed with the events delivered and the
    execution shown with the last of them. *)
Lemma scanEvents_direct_thread (runID : Z) (streamErr : option error)
    (events : list TestEvent) :
  ∀ (exec : Execution) (h : H) sc,
    scanEvents (directHandle handler) runID events streamErr exec h = Done sc →
    scHandler sc = feed handler h (scDelivered sc)
    ∧ scExec sc = lastShown exec (scDelivered sc)
    ∧ map fst (scDelivered sc) `prefix_of` events
    ∧ (scErr sc = None → map fst (scDelivered sc) = events).
Proof.
  induction events as [|ev evs IH]; intros exec h sc; cbn [scanEvents].
  - intros [= <-]. cbn. split_and!; done.
  - unfold directHandle at 1.
    destruct (handler ev (execAdd runID exec ev) h) as [[err|] h'] eqn:Hcall.
    + intros [= <-]. cbn. rewrite Hcall. split_and!; try done.
      by apply prefix_cons, prefix_nil.
    + destruct (scanEvents (directHandle handler) runID evs streamErr
                  (execAdd runID exec ev) h') as [sc'|] eqn:Hscan; [| done].
      intros [= <-]. destruct (IH _ _ _ Hscan) as (I1 & I2 & I3 & I4).
      cbn. rewrite Hcall. cbn. split_and!; try done.
      * by apply prefix_cons.
      * intros Hnone. by rewrite (I4 Hnone).
Qed.

(** The record of an invocation names its round, index, case and
    arguments. *)
Lemma rerunOne_log (attempts : Z) (i : nat) (tc : TestCase)
    (nextRec : failureRecorder H) (st : state W H) :
  ilAttempt (crLog (rerunOne opts attempts i tc nextRec st)) = attempts
  ∧ ilIndex (crLog (rerunOne opts attempts i tc nextRec st)) = i
  ∧ ilCase (crLog (rerunOne opts attempts i tc nextRec st)) = tc
  ∧ ilArgs (crLog (rerunOne opts attempts i tc nextRec st))
    = invocationArgs opts attempts i tc.
Proof.
  unfold rerunOne, invocationArgs, rerunProfilePathOf.
  destruct (isCoverprofile opts);
    (destruct (startGoTestFn _ (stWorld st)) as [[err | proc] w]; [done |]);
    (destruct (scanEvents _ _ _ _ _ _) as [sc|]; [| done]);
    (destruct (scErr sc); [done |]).
  - destruct (ParseProfiles _ w) as [[err | prof] w1]; [done |].
    destruct (Remove _ w1) as [[err|] w2]; [done |].
    by destruct (hasErrors _ _).
  - by destruct (hasErrors _ _).
Qed.

(** One invocation threads the handler's store and the execution. *)
Lemma rerunOne_thread (attempts : Z) (i : nat) (tc : TestCase)
    (nextRec : failureRecorder H) (st : state W H) :
  EventHandler nextRec = Some handler →
  stHandler (crState (rerunOne opts attempts i tc nextRec st))
  = feed handler (stHandler st)
      (ilDelivered (crLog (rerunOne opts attempts i tc nextRec st)))
  ∧ stExec (crState (rerunOne opts attempts i tc nextRec st))
    = lastShown (stExec st)
        (ilDelivered (crLog (rerunOne opts attempts i tc nextRec st))).
Proof.
  intros Hh. unfold rerunOne.
  destruct (startGoTestFn _ (stWorld st)) as [[err | proc] w]; [done |].
  destruct (scanEvents_recorder handler (attempts + 1) (streamErr proc)
              (stdout proc) (stExec st) nextRec (stHandler st) Hh)
    as (sc & sc' & -> & Hdirect & _ & Hx & Hd & Hs & _).
  destruct (scanEvents_direct_thread _ _ _ _ _ _ Hdirect) as (T1 & T2 & _).
  rewrite <- Hs, <- Hd in T1. rewrite <- Hx, <- Hd in T2.
  destruct (scErr sc); [done |].
  destruct (isCoverprofile opts).
  - destruct (ParseProfiles _ w) as [[err | prof] w1]; [done |].
    destruct (Remove _ w1) as [[err|] w2]; [done |].
    by destruct (hasErrors _ _).
  - by destruct (hasErrors _ _).
Qed.

(** The inner loop: its invocations follow the cases in order, it covers
    all of them unless it returns, and it threads handler and execution. *)
Lemma rerunCases_order (attempts : Z) (tcs : list TestCase) :
  ∀ (i : nat) (nextRec : failureRecorder H) (st : state W H),
    EventHandler nextRec = Some handler →
    (∀ j il, csLogs (rerunCases opts attempts i tcs nextRec st) !! j = Some il →
       ilAttempt il = attempts
       ∧ ilIndex il = (i + j)%nat
       ∧ tcs !! j = Some (ilCase il)
       ∧ ilArgs il = invocationArgs opts attempts (i + j) (ilCase il))
    ∧ (csStop (rerunCases opts attempts i tcs nextRec st) = None →
       map ilCase (csLogs (rerunCases opts attempts i tcs nextRec st)) = tcs)
    ∧ stHandler (csState (rerunCases opts attempts i tcs nextRec st))
      = feed handler (stHandler st)
          (mbind ilDelivered (csLogs (rerunCases opts attempts i tcs nextRec st)))
    ∧ stExec (csState (rerunCases opts attempts i tcs nextRec st))
      = lastShown (stExec st)
          (mbind ilDelivered (csLogs (rerunCases opts attempts i tcs nextRec st))).
Proof.
  induction tcs as [|tc tcs IH]; intros i nextRec st Hh; cbn [rerunCases].
  - cbn. split_and!; done.
  - destruct (rerunOne_log attempts i tc nextRec st) as (L1 & L2 & L3 & L4).
    destruct (rerunOne_thread attempts i tc nextRec st Hh) as (T1 & T2).
    destruct (rerunOne_spec opts handler attempts i tc nextRec st Hh) as (Hh' & _).
    destruct (crStop (rerunOne opts attempts i tc nextRec st)) as [stop|] eqn:Hstop;
      cbn [csLogs csStop csState].
    + split_and!; [| done | |].
      * intros [|j] il Hil; [| done]. injection Hil as <-.
        rewrite Nat.add_0_r, L1, L2, L3, L4. done.
      * cbn. by rewrite app_nil_r.
      * cbn. by rewrite app_nil_r.
    + destruct (IH (S i) _ (crState (rerunOne opts attempts i tc nextRec st)) Hh')
        as (I1 & I2 & I3 & I4).
      split_and!.
      * intros [|j] il Hil.
        -- injection Hil as <-. rewrite Nat.add_0_r, L1, L2, L3, L4. done.
        -- destruct (I1 j il Hil) as (? & ? & ? & ?).
           replace (i + S j)%nat with (S i + j)%nat by lia. done.
      * intros Hnone. cbn [map]. by rewrite L3, (I2 Hnone).
      * rewrite I3, T1.
        change (mbind ilDelivered (?x :: ?l)) with (ilDelivered x ++ mbind ilDelivered l).
        by rewrite feed_app.
      * rewrite I4, T2.
        change (mbind ilDelivered (?x :: ?l)) with (ilDelivered x ++ mbind ilDelivered l).
        by rewrite lastShown_app.
Qed.

End LoopMore.

Section SessionMore.

Context {W H : Type} `{!Collaborators W}.
Variable opts : options.
Variable handler : EventHandlerT H.

(** The outer loop: the rounds are numbered from [attempts] on, each
    reruns its selection in order, every round but an interrupted last one
    covers its whole selection, and handler and execution are threaded
    through all of them. *)
Lemma rerunRounds_order (fuel : nat) :
  ∀ (attempts : Z) (rec : failureRecorder H) (st : state W H),
    (∀ k r, sRounds (rerunRounds opts handler fuel attempts rec st) !! k = Some r →
       rlAttempt r = (attempts + Z.of_nat k)%Z
       ∧ invocationsOk opts r
       ∧ ((S k < length (sRounds (rerunRounds opts handler fuel attempts rec st)))%nat
          ∨ inLoopExit (sExit (rerunRounds opts handler fuel attempts rec st)) = false →
          map ilCase (rlInvocations r) = rlSelected r))
    ∧ stHandler (sState (rerunRounds opts handler fuel attempts rec st))
      = feed handler (stHandler st)
          (sessionDelivered (rerunRounds opts handler fuel attempts rec st))
    ∧ stExec (sState (rerunRounds opts handler fuel attempts rec st))
      = lastShown (stExec st)
          (sessionDelivered (rerunRounds opts handler fuel attempts rec st)).
Proof.
  induction fuel as [|fuel IH]; intros attempts rec st; cbn [rerunRounds];
    destruct (bool_decide (0 < count rec)%nat
              && bool_decide (attempts < rerunFailsMaxAttempts opts)%Z);
    try (cbn; split_and!; done).
  destruct (rerunCases_order opts handler attempts
              (rerunFailsFilter opts (failures rec)) 0
              (newFailureRecorder handler) st eq_refl) as (O1 & O2 & O3 & O4).
  destruct (rerunCases_spec opts handler attempts
              (rerunFailsFilter opts (failures rec)) 0
              (newFailureRecorder handler) st eq_refl) as (_ & _ & _ & C4).
  set (rs := rerunCases opts attempts 0 (rerunFailsFilter opts (failures rec))
               (newFailureRecorder handler) st) in *.
  assert (Hok : invocationsOk opts
                  (mkRoundLog attempts rec (rerunFailsFilter opts (failures rec))
                     (csLogs rs) (csRec rs))).
  { intros j il Hil. cbn in Hil. destruct (O1 j il Hil) as (? & ? & ? & ?).
    cbn. split_and!; done. }
  destruct (csStop rs) as [[ex err]|] eqn:Hstop;
    cbn [sRounds sExit sState length].
  - split_and!.
    + intros [|k] r Hr; [| done]. injection Hr as <-.
      split_and!; [cbn; lia | done |].
      destruct (C4 _ eq_refl) as [Hex _]. cbn in Hex.
      intros [? | ?]; [lia | congruence].
    + unfold sessionDelivered, roundDelivered. cbn. by rewrite app_nil_r.
    + unfold sessionDelivered, roundDelivered. cbn. by rewrite app_nil_r.
  - destruct (IH (attempts + 1)%Z (csRec rs) (csState rs)) as (I1 & I2 & I3).
    split_and!.
    + intros [|k] r Hr.
      * injection Hr as <-. split_and!; [cbn; lia | done |].
        intros _. cbn. by apply O2.
      * destruct (I1 k r Hr) as (Ha & Hinv & Hcomplete).
        split_and!; [lia | done |].
        intros [? | ?]; apply Hcomplete; [left; lia | by right].
    + rewrite I2, O3. unfold sessionDelivered. cbn [sRounds].
      change (mbind roundDelivered (?x :: ?l)) with (roundDelivered x ++ mbind roundDelivered l).
      by rewrite feed_app.
    + rewrite I3, O4. unfold sessionDelivered. cbn [sRounds].
      change (mbind roundDelivered (?x :: ?l)) with (roundDelivered x ++ mbind roundDelivered l).
      by rewrite lastShown_app.
Qed.

(** The last statements of [rerunFailed] leave handler and execution as the
    loop left them. *)
Lemma rerunFailed_state (exec : Execution) (h : H) (w : W) :
  stHandler (sState (rerunFailed opts handler exec h w))
  = stHandler (sState (loopOf opts handler exec h w))
  ∧ stExec (sState (rerunFailed opts handler exec h w))
    = stExec (sState (loopOf opts handler exec h w))
  ∧ stProfiles (sState (rerunFailed opts handler exec h w))
    = stProfiles (sState (loopOf opts handler exec h w)).
Proof.
  unfold rerunFailed. fold (loopOf opts handler exec h w).
  destruct (sExit (loopOf opts handler exec h w)); try done.
  destruct (isCoverprofile opts); [| done].
  by destruct (Combine _ _ _) as [[err|] w'].
Qed.

(** X5: a session reruns in order.  Round number k (from 0) runs one
    process per selected case, in the order of the selection and from its
    first case on, each with the arguments [goTestCmdArgs] makes of the
    case's rerun options (with the coverage profile [main.k.j] of its own
    for the case at index j when coverage is on); every round before the
    last covers its whole selection, and so does the last when the session
    ends without a fatal error. *)
Theorem invocations_follow_selection (exec : Execution) (h : H) (w : W)
    (k : nat) (r : roundLog H) :
  sRounds (rerunFailed opts handler exec h w) !! k = Some r →
  rlAttempt r = Z.of_nat k
  ∧ (∀ j il, rlInvocations r !! j = Some il →
       ilAttempt il = Z.of_nat k
       ∧ ilIndex il = j
       ∧ rlSelected r !! j = Some (ilCase il)
       ∧ ilArgs il = invocationArgs opts (Z.of_nat k) j (ilCase il))
  ∧ ((S k < length (sRounds (rerunFailed opts handler exec h w)))%nat →
     map ilCase (rlInvocations r) = rlSelected r)
  ∧ (sExit (rerunFailed opts handler exec h w) = AtEnd →
     map ilCase (rlInvocations r) = rlSelected r).
Proof.
  destruct (rerunFailed_loop opts handler exec h w) as (-> & _ & Hend & _).
  intros Hr.
  destruct (rerunRounds_order (Z.to_nat (rerunFailsMaxAttempts opts)) 0
              (newFailureRecorderFromExecution exec) (mkState w exec h []))
    as (Hord & _).
  fold (loopOf opts handler exec h w) in Hord.
  destruct (Hord k r Hr) as (Ha & Hinv & Hcomplete).
  rewrite Z.add_0_l in Ha. split_and!.
  - done.
  - intros j il Hil. destruct (Hinv j il Hil) as (? & ? & ? & ?).
    rewrite <- Ha. done.
  - intros Hlt. apply Hcomplete. by left.
  - intros Hat. apply Hcomplete. right.
    destruct (Hend Hat) as [-> _]. done.
Qed.

(** X6: the caller's handler and the shared execution are threaded through
    the whole session: when [rerunFailed] returns, the handler's store is
    the one it had at the start fed with every event delivered in every
    round, in order and once each, and the execution is the one shown with
    the last event delivered (the one passed in, when there was none). *)
Theorem session_threads_handler_and_execution (exec : Execution) (h : H) (w : W) :
  stHandler (sState (rerunFailed opts handler exec h w))
  = feed handler h (sessionDelivered (rerunFailed opts handler exec h w))
  ∧ stExec (sState (rerunFailed opts handler exec h w))
    = lastShown exec (sessionDelivered (rerunFailed opts handler exec h w)).
Proof.
  destruct (rerunFailed_state exec h w) as (-> & -> & _).
  unfold sessionDelivered.
  destruct (rerunFailed_loop opts handler exec h w) as (-> & _).
  destruct (rerunRounds_order (Z.to_nat (rerunFailsMaxAttempts opts)) 0
              (newFailureRecorderFromExecution exec) (mkState w exec h []))
    as (_ & Hh & Hx).
  by fold (loopOf opts handler exec h w) in Hh, Hx.
Qed.

(** X7: [rerunFailed] returns nil only from its last statement: every
    return inside the loop, and the one after a failed merge, returns an
    error. *)
Theorem nil_only_from_last_statement (exec : Execution) (h : H) (w : W) :
  sExit (rerunFailed opts handler exec h w) = AtEnd
  ∨ is_Some (sErr (rerunFailed opts handler exec h w)).
Proof.
  destruct (rerunFailed_loop opts handler exec h w)
    as (_ & _ & _ & Hex & Hcomb & Hsame).
  destruct (decide (sExit (rerunFailed opts handler exec h w) = AtEnd)) as [? | Hne];
    [by left | right].
  destruct Hex as [Hc | Heq]; [by apply Hcomb |].
  rewrite Heq in Hne. rewrite (Hsame Hne).
  destruct (rerunRounds_spec opts handler (Z.to_nat (rerunFailsMaxAttempts opts))
              0 (newFailureRecorderFromExecution exec) (mkState w exec h [])
              ltac:(lia)) as (_ & _ & _ & _ & Hin & Hkind & Hfuel).
  fold (loopOf opts handler exec h w) in Hin, Hkind, Hfuel.
  destruct (inLoopExit (sExit (loopOf opts handler exec h w))) eqn:Hk;
    [by apply Hin |].
  destruct (Hkind eq_refl) as [? | Hout]; [done |].
  exfalso. apply Hfuel; [lia | done].
Qed.

End SessionMore.

(** Rounds 1 and 2 of the scripted session: the first reruns [A] and [B]
    in this order, each with its own run flag. *)
Lemma invocations_follow_selection_witness :
  ∃ r, sRounds (rerunFailed Double.exampleOpts Double.logHandler Double.exampleExec
                  [] Double.exampleWorld) !! 0%nat = Some r
       ∧ map ilCase (rlInvocations r) = rlSelected r
       ∧ rlSelected r = [mkTestCase "p" "A"; mkTestCase "p" "B"]
       ∧ map ilArgs (rlInvocations r)
         = [["test"; "-json"; "-test.run=^A$"; "p"];
            ["test"; "-json"; "-test.run=^B$"; "p"]].
Proof.
  destruct (sRounds (rerunFailed Double.exampleOpts Double.logHandler
                       Double.exampleExec [] Double.exampleWorld) !! 0%nat)
    as [r|] eqn:H0; [| by vm_compute in H0].
  exists r. split; [done |].
  destruct (invocations_follow_selection Double.exampleOpts Double.logHandler
              Double.exampleExec [] Double.exampleWorld 0 r H0)
    as (_ & _ & Hcomplete & _).
  split; [apply Hcomplete; vm_compute; lia |].
  vm_compute in H0. injection H0 as <-. split; reflexivity.
Defined.

(** *** Sessions that rerun nothing *)

Section Idle.

Context {W H : Type} `{!Collaborators W}.
Variable opts : options.
Variable handler : EventHandlerT H.

Lemma rerunRounds_stop (fuel : nat) (attempts : Z) (rec : failureRecorder H)
    (st : state W H) :
  bool_decide (0 < count rec)%nat
  && bool_decide (attempts < rerunFailsMaxAttempts opts)%Z = false →
  rerunRounds opts handler fuel attempts rec st = mkSession None AtEnd st rec [].
Proof. intros Hc. destruct fuel; cbn [rerunRounds]; by rewrite Hc. Qed.

(** X8: with no attempt allowed or no failure to start from, [rerunFailed]
    runs no round.  Without a coverage profile it returns nil and leaves the
    world, the execution and the handler as they were: no process is
    started.  With a coverage profile it still calls [Combine] on the main
    profile, with no partial profile, and returns its error, if any. *)
Theorem nothing_to_rerun (exec : Execution) (h : H) (w : W) :
  (rerunFailsMaxAttempts opts ≤ 0)%Z ∨ FailedOf exec = [] →
  sRounds (rerunFailed opts handler exec h w) = []
  ∧ stExec (sState (rerunFailed opts handler exec h w)) = exec
  ∧ stHandler (sState (rerunFailed opts handler exec h w)) = h
  ∧ (isCoverprofile opts = false →
     rerunFailed opts handler exec h w
     = mkSession None AtEnd (mkState w exec h [])
         (newFailureRecorderFromExecution exec) [])
  ∧ (isCoverprofile opts = true →
     stWorld (sState (rerunFailed opts handler exec h w))
     = (Combine (mainProfilePath opts) [] w).2
     ∧ (sErr (rerunFailed opts handler exec h w) = None
        ↔ (Combine (mainProfilePath opts) [] w).1 = None)).
Proof.
  intros Hidle.
  assert (Hc : bool_decide (0 < count (H:=H) (newFailureRecorderFromExecution exec))%nat
               && bool_decide (0 < rerunFailsMaxAttempts opts)%Z = false).
  { apply andb_false_iff. destruct Hidle as [Hmax | Hnone].
    - right. apply bool_decide_eq_false. lia.
    - left. apply bool_decide_eq_false. unfold count. cbn. rewrite Hnone. cbn. lia. }
  unfold rerunFailed.
  rewrite (rerunRounds_stop _ _ _ _ Hc). cbn [sExit sState sRec sRounds].
  destruct (isCoverprofile opts).
  - cbn [stProfiles stWorld stExec stHandler].
    destruct (Combine (mainProfilePath opts) [] w) as [[err|] w']; cbn;
      split_and!; done.
  - cbn. split_and!; done.
Qed.

(** X9: when the filter selects none of the failures, the one round runs
    no process and records no failure, and the session ends after it:
    without a coverage profile [rerunFailed] returns nil and leaves the
    world untouched, although failures were there. *)
Theorem empty_selection_reruns_nothing (exec : Execution) (h : H) (w : W) :
  FailedOf exec ≠ [] →
  (0 < rerunFailsMaxAttempts opts)%Z →
  rerunFailsFilter opts (FailedOf exec) = [] →
  sRounds (rerunFailed opts handler exec h w)
  = [mkRoundLog 0 (newFailureRecorderFromExecution exec) [] []
       (newFailureRecorder handler)]
  ∧ (isCoverprofile opts = false →
     sErr (rerunFailed opts handler exec h w) = None
     ∧ sExit (rerunFailed opts handler exec h w) = AtEnd
     ∧ sState (rerunFailed opts handler exec h w) = mkState w exec h []).
Proof.
  intros Hfail Hmax Hsel.
  assert (Hloop : loopOf opts handler exec h w
                  = mkSession None AtEnd (mkState w exec h [])
                      (newFailureRecorder handler)
                      [mkRoundLog 0 (newFailureRecorderFromExecution exec) [] []
                         (newFailureRecorder handler)]).
  { unfold loopOf.
    destruct (Z.to_nat (rerunFailsMaxAttempts opts)) as [|fuel] eqn:Hfuel; [lia |].
    cbn [rerunRounds].
    rewrite (bool_decide_eq_true_2 (0 < count _)%nat),
      (bool_decide_eq_true_2 (0 < rerunFailsMaxAttempts opts)%Z); [| done |].
    2:{ unfold count. cbn. destruct (FailedOf exec); [done | cbn; lia]. }
    cbn [andb failures newFailureRecorderFromExecution]. rewrite Hsel.
    cbn [rerunCases csStop csRec csState csLogs].
    rewrite rerunRounds_stop; [done |].
    apply andb_false_iff. left. apply bool_decide_eq_false. cbn. lia. }
  unfold rerunFailed. fold (loopOf opts handler exec h w). rewrite Hloop.
  cbn [sExit sState sRec sRounds].
  destruct (isCoverprofile opts).
  - by destruct (Combine _ _ _) as [[err|] w'].
  - split; [done |]. intros _. done.
Qed.

End Idle.

(** A session with no attempt allowed, and one with coverage on and no
    failure: the merge of [cover.out] is still written. *)
Lemma nothing_to_rerun_witness :
  rerunFailed (mkOptions ["./..."] 0 false "") Double.logHandler Double.exampleExec
    [] Double.exampleWorld
  = mkSession None AtEnd (mkState Double.exampleWorld Double.exampleExec [] [])
      (newFailureRecorderFromExecution Double.exampleExec) []
  ∧ sRounds (rerunFailed Double.coverOpts Double.logHandler (Double.execOf "p" [] ["A"])
               [] Double.coverWorld) = [].
Proof.
  split.
  - apply (nothing_to_rerun (mkOptions ["./..."] 0 false "") Double.logHandler
             Double.exampleExec [] Double.exampleWorld); [left; cbn; lia | reflexivity].
  - apply (nothing_to_rerun Double.coverOpts Double.logHandler
             (Double.execOf "p" [] ["A"]) [] Double.coverWorld).
    right. reflexivity.
Defined.

(** Under the root-only policy with a subtest as the only failure nothing
    is rerun and nil is returned. *)
Lemma empty_selection_reruns_nothing_witness :
  sErr (rerunFailed (mkOptions ["./..."] 3 true "") Double.logHandler
          (Double.execOf "p" ["TestFoo/bar"] []) [] Double.exampleWorld) = None
  ∧ sState (rerunFailed (mkOptions ["./..."] 3 true "") Double.logHandler
              (Double.execOf "p" ["TestFoo/bar"] []) [] Double.exampleWorld)
    = mkState Double.exampleWorld (Double.execOf "p" ["TestFoo/bar"] []) [] [].
Proof.
  destruct (empty_selection_reruns_nothing (mkOptions ["./..."] 3 true "")
              Double.logHandler (Double.execOf "p" ["TestFoo/bar"] []) []
              Double.exampleWorld) as (_ & Hnil).
  - vm_compute. discriminate.
  - cbn. lia.
  - reflexivity.
  - destruct (Hnil eq_refl) as (? & _ & ?). done.
Defined.

(** *** Coverage profiles of the reruns *)

Section ProfilePaths.

Import GoStrings.

Context {W : Type} `{!Collaborators W}.

Lemma pretty_N_char_no_dot (d : N) : Ascii.eqb (pretty_N_char d) "."%char = false.
Proof. unfold pretty_N_char. by repeat case_match. Qed.

Lemma pretty_N_go_no_dot (x : N) : ∀ s,
  Contains (pretty_N_go x s) "."%char = Contains s "."%char.
Proof.
  induction (N.lt_wf_0 x) as [x _ IH]; intros s.
  assert (x = 0 ∨ 0 < x)%N as [-> | Hpos] by lia.
  - by rewrite pretty_N_go_0.
  - rewrite pretty_N_go_step by done. rewrite IH by (by apply N.div_lt).
    cbn [Contains]. by rewrite pretty_N_char_no_dot.
Qed.

Lemma pretty_N_no_dot (x : N) : Contains (pretty x) "."%char = false.
Proof.
  unfold pretty, pretty_N. case_decide; [done |]. by rewrite pretty_N_go_no_dot.
Qed.

Lemma pretty_Z_no_dot (x : Z) : Contains (pretty x) "."%char = false.
Proof.
  unfold pretty, pretty_Z. destruct x as [|p|p]; [done | |].
  - apply (pretty_N_no_dot (N.pos p)).
  - rewrite Contains_app. cbn. apply (pretty_N_no_dot (N.pos p)).
Qed.

Lemma pretty_nat_no_dot (x : nat) : Contains (pretty x) "."%char = false.
Proof. apply (pretty_N_no_dot (N.of_nat x)). Qed.

Lemma dot_split_inj (a a' b b' : string) :
  Contains a "."%char = false → Contains a' "."%char = false →
  a +:+ "." +:+ b = a' +:+ "." +:+ b' → a = a' ∧ b = b'.
Proof.
  revert a'. induction a as [|x a IH]; intros [|x' a'] Ha Ha';
    rewrite ?append_cons, ?append_nil_l.
  - by intros [= ->].
  - intros [= <- _]. by cbn in Ha'.
  - intros [= -> _]. by cbn in Ha.
  - intros Heq. injection Heq as -> Hrest.
    cbn [Contains] in Ha, Ha'.
    apply orb_false_iff in Ha as [_ Ha]. apply orb_false_iff in Ha' as [_ Ha'].
    by destruct (IH a' Ha Ha' Hrest) as [-> ->].
Qed.

(** X10: the coverage profiles of the reruns do not collide: the path
    [main.attempts.i] given to a rerun determines its round and its index
    in the round, so two reruns of a session never write the same file. *)
Theorem rerun_profile_paths_differ (opts : options) (attempts attempts' : Z)
    (i i' : nat) :
  rerunProfilePathOf opts attempts i = rerunProfilePathOf opts attempts' i' →
  attempts = attempts' ∧ i = i'.
Proof.
  unfold rerunProfilePathOf.
  intros Hp%(inj (String.app (mainProfilePath opts)))%(inj (String.app ".")).
  apply dot_split_inj in Hp as [Ha Hi];
    [| apply pretty_Z_no_dot | apply pretty_Z_no_dot].
  split; [by apply (inj pretty) in Ha | by apply (inj pretty) in Hi].
Qed.

End ProfilePaths.

(** The path of the rerun at round 1, index 10, of a session whose main
    profile is [cover.out]. *)
Lemma rerun_profile_paths_differ_witness :
  rerunProfilePathOf Double.coverOpts 1 10 = "cover.out.1.10"
  ∧ (1%Z = 1%Z ∧ 10%nat = 10%nat).
Proof.
  split; [vm_compute; reflexivity |].
  apply (rerun_profile_paths_differ Double.coverOpts 1 1 10 10). reflexivity.
Defined.

(** *** Sessions without a coverage profile *)

Section NoCoverage.

Context {W H : Type} (C : Collaborators W).
Variable parse : string → W → (error + list Profile) * W.
Variable remove : string → W → option error * W.
Variable combine : string → list Profile → W → option error * W.
Variable opts : options.
Variable handler : EventHandlerT H.
Hypothesis noCoverage : isCoverprofile opts = false.

Lemma rerunOne_without_coverage (attempts : Z) (i : nat) (tc : TestCase)
    (nextRec : failureRecorder H) (st : state W H) :
  rerunOne (Collaborators0 := withCoverageOps C parse remove combine)
    opts attempts i tc nextRec st
  = rerunOne opts attempts i tc nextRec st
  ∧ stProfiles (crState (rerunOne opts attempts i tc nextRec st)) = stProfiles st.
Proof.
  unfold rerunOne.
  change (isCoverprofile (Collaborators0 := withCoverageOps C parse remove combine) opts)
    with (isCoverprofile opts).
  rewrite noCoverage. split; [reflexivity |].
  destruct (startGoTestFn _ (stWorld st)) as [[err | proc] w]; [done |].
  destruct (scanEvents _ _ _ _ _ _) as [sc|]; [| done].
  destruct (scErr sc); [done |].
  by destruct (hasErrors _ _).
Qed.

Lemma rerunCases_without_coverage (attempts : Z) (tcs : list TestCase) :
  ∀ (i : nat) (nextRec : failureRecorder H) (st : state W H),
    rerunCases (Collaborators0 := withCoverageOps C parse remove combine)
      opts attempts i tcs nextRec st
    = rerunCases opts attempts i tcs nextRec st
    ∧ stProfiles (csState (rerunCases opts attempts i tcs nextRec st))
      = stProfiles st.
Proof.
  induction tcs as [|tc tcs IH]; intros i nextRec st; cbn [rerunCases]; [done |].
  destruct (rerunOne_without_coverage attempts i tc nextRec st) as [-> Hp].
  destruct (crStop (rerunOne opts attempts i tc nextRec st)); [done |].
  destruct (IH (S i) (crRec (rerunOne opts attempts i tc nextRec st))
              (crState (rerunOne opts attempts i tc nextRec st))) as [-> Hp'].
  cbn [csState]. by rewrite Hp', Hp.
Qed.

Lemma rerunRounds_without_coverage (fuel : nat) :
  ∀ (attempts : Z) (rec : failureRecorder H) (st : state W H),
    rerunRounds (Collaborators0 := withCoverageOps C parse remove combine)
      opts handler fuel attempts rec st
    = rerunRounds opts handler fuel attempts rec st
    ∧ stProfiles (sState (rerunRounds opts handler fuel attempts rec st))
      = stProfiles st.
Proof.
  induction fuel as [|fuel IH]; intros attempts rec st; cbn [rerunRounds];
    destruct (bool_decide (0 < count rec)%nat
              && bool_decide (attempts < rerunFailsMaxAttempts opts)%Z);
    try done.
  destruct (rerunCases_without_coverage attempts
              (rerunFailsFilter opts (failures rec)) 0
              (newFailureRecorder handler) st) as [-> Hp].
  destruct (csStop _) as [[ex err]|]; [done |].
  destruct (IH (attempts + 1)%Z
              (csRec (rerunCases opts attempts 0 (rerunFailsFilter opts (failures rec))
                        (newFailureRecorder handler) st))
              (csState (rerunCases opts attempts 0 (rerunFailsFilter opts (failures rec))
                          (newFailureRecorder handler) st))) as [-> Hp'].
  cbn [sState]. by rewrite Hp', Hp.
Qed.

(** X11: without a [-coverprofile] flag a session never parses, removes or
    merges a coverage profile: [rerunFailed] runs the same whatever these
    three operations would do, and accumulates no profile. *)
Theorem coverage_untouched_without_coverprofile (exec : Execution) (h : H) (w : W) :
  rerunFailed (Collaborators0 := withCoverageOps C parse remove combine)
    opts handler exec h w
  = rerunFailed opts handler exec h w
  ∧ stProfiles (sState (rerunFailed opts handler exec h w)) = [].
Proof.
  unfold rerunFailed.
  change (isCoverprofile (Collaborators0 := withCoverageOps C parse remove combine) opts)
    with (isCoverprofile opts).
  rewrite noCoverage.
  destruct (rerunRounds_without_coverage (Z.to_nat (rerunFailsMaxAttempts opts)) 0
              (newFailureRecorderFromExecution exec) (mkState w exec h []))
    as [-> Hp].
  split; [reflexivity |].
  by destruct (sExit _).
Qed.

End NoCoverage.

(** The scripted session has no coverage flag: it runs the same when every
    coverage operation fails. *)
Lemma coverage_untouched_without_coverprofile_witness :
  rerunFailed
    (Collaborators0 :=
       withCoverageOps Double.collaborators
         (λ _ w, (inl (Err "unreadable"), w))
         (λ _ w, (Some (Err "unremovable"), w))
         (λ _ _ w, (Some (Err "unwritable"), w)))
    Double.exampleOpts Double.logHandler Double.exampleExec [] Double.exampleWorld
  = rerunFailed Double.exampleOpts Double.logHandler Double.exampleExec []
      Double.exampleWorld.
Proof.
  apply (coverage_untouched_without_coverprofile Double.collaborators
           (λ _ w, (inl (Err "unreadable"), w))
           (λ _ w, (Some (Err "unremovable"), w))
           (λ _ _ w, (Some (Err "unwritable"), w))
           Double.exampleOpts Double.logHandler eq_refl).
Defined.

(** *** A recorder over a whole scan *)

Section RecorderMore.

Context {W H : Type} `{!Collaborators W}.

Lemma length_recorded (delivered : list (TestEvent * Execution)) :
  length (recorded delivered)
  = length (filter (λ d, testFailed d.1 = true) delivered).
Proof.
  induction delivered as [|d ds IH]; [done |].
  rewrite recorded_cons, length_app, IH, filter_cons.
  destruct (testFailed d.1); [by rewrite decide_True | by rewrite decide_False].
Qed.

(** X12: a scan through a recorder that wraps a handler does not panic, and
    the recorder only appends: the failures it had stay in front, its count
    grows by one for every failing test event delivered and for no other
    event, and its [lastErr] and its handler are as before.  The events
    delivered are a prefix of the stream, and all of it when the scan
    returns no error. *)
Theorem scan_only_appends (handler : EventHandlerT H) (r : failureRecorder H)
    (runID : Z) (events : list TestEvent) (streamErr : option error)
    (exec : Execution) (h : H) :
  EventHandler r = Some handler →
  ∃ sc, scanEvents recorderHandle runID events streamErr exec (r, h) = Done sc
        ∧ failures r `prefix_of` failures (scHandler sc).1
        ∧ count (scHandler sc).1
          = (count r + length (filter (λ d, testFailed d.1 = true) (scDelivered sc)))%nat
        ∧ lastErr (scHandler sc).1 = lastErr r
        ∧ EventHandler (scHandler sc).1 = Some handler
        ∧ map fst (scDelivered sc) `prefix_of` events
        ∧ (scErr sc = None → map fst (scDelivered sc) = events).
Proof.
  intros Hh.
  destruct (scanEvents_recorder handler runID streamErr events exec r h Hh)
    as (sc & sc' & Hscan & Hdirect & He & _ & Hd & _ & Hh' & Hf & Hl).
  destruct (scanEvents_direct_thread handler _ _ _ _ _ _ Hdirect)
    as (_ & _ & Hpre & Hall).
  exists sc. split_and!; try done.
  - rewrite Hf. by apply prefix_app_r.
  - unfold count. by rewrite Hf, length_app, length_recorded.
  - by rewrite Hd.
  - rewrite He, Hd. exact Hall.
Qed.

End RecorderMore.

(** A stream of a passing test, a failing test and the failing package
    event: one case is recorded. *)
Lemma scan_only_appends_witness :
  ∃ sc, scanEvents recorderHandle 1
          [Double.passEvent "p" "A"; Double.failEvent "p" "B"; Double.failEvent "p" ""]
          None Double.exampleExec (newFailureRecorder Double.logHandler, [])
        = Done sc
        ∧ count (scHandler sc).1 = 1%nat.
Proof.
  destruct (scan_only_appends Double.logHandler (newFailureRecorder Double.logHandler)
              1 [Double.passEvent "p" "A"; Double.failEvent "p" "B"; Double.failEvent "p" ""]
              None Double.exampleExec [] eq_refl)
    as (sc & Hscan & _ & Hcount & _).
  exists sc. split; [exact Hscan |].
  rewrite Hcount. vm_compute in Hscan. injection Hscan as <-. reflexivity.
Defined.

(** *** More on the report *)

Section ReportMore.

Context {W : Type} `{!Collaborators W}.

(** Every row of the report belongs to a failure: it bears the name of
    the first failure so named and shows its tally. *)
Lemma reportRows_rows (exec : Execution) :
  NoDup (map fst (reportRows exec))
  ∧ (∀ name, name ∈ map fst (reportRows exec)
             ↔ name ∈ map reportName (FailedOf exec))
  ∧ (∀ row, row ∈ reportRows exec →
       ∃ failure, failure ∈ FailedOf exec
                  ∧ reportName failure = row.1
                  ∧ row.2 = tallyOf exec failure).
Proof.
  destruct (reportTally_fold exec (FailedOf exec) [] ∅ NoDup_nil_2)
    as (Hnd & Hin & Hres).
  { intros name. rewrite elem_of_nil, lookup_empty. split; [done |].
    by intros ?%is_Some_None. }
  fold (reportTally exec) in Hnd, Hin, Hres.
  assert (Hnames : ∀ name, name ∈ map fst (reportRows exec)
                           ↔ name ∈ map reportName (FailedOf exec)).
  { intros name. rewrite reportRows_names, merge_sort_Permutation, Hin.
    rewrite elem_of_nil. tauto. }
  split_and!; [| done |].
  - rewrite reportRows_names. by rewrite merge_sort_Permutation.
  - intros row Hr.
    assert (Hn : row.1 ∈ map reportName (FailedOf exec)).
    { apply Hnames. by apply list_elem_of_fmap_2. }
    unfold reportRows in Hr. destruct (reportTally exec) as [names results].
    apply list_elem_of_fmap in Hr as (name & -> & _). cbn [fst snd] in *.
    rewrite Hres, lookup_empty.
    apply list_elem_of_fmap in Hn as (f & Hname & Hf).
    unfold firstNamed.
    destruct (filter (λ f, reportName f = name) (FailedOf exec)) as [|g l] eqn:Hg.
    + assert (Hfin : f ∈ filter (λ f, reportName f = name) (FailedOf exec))
        by (by apply list_elem_of_filter).
      rewrite Hg in Hfin. by apply elem_of_nil in Hfin.
    + assert (Hgin : g ∈ filter (λ f, reportName f = name) (FailedOf exec))
        by (rewrite Hg; apply list_elem_of_here).
      apply list_elem_of_filter in Hgin as [Hgname Hgin].
      exists g. cbn. done.
Qed.

Lemma reportRows_length (exec : Execution) :
  (length (reportRows exec) ≤ length (FailedOf exec))%nat.
Proof.
  destruct (reportRows_rows exec) as (Hnd & Hnames & _).
  rewrite <- (length_fmap fst (reportRows exec)),
    <- (length_fmap reportName (FailedOf exec)).
  apply submseteq_length, NoDup_submseteq; [done |].
  intros name. apply Hnames.
Qed.

Lemma reportRows_nil (exec : Execution) :
  FailedOf exec = [] → reportRows exec = [].
Proof.
  intros Hnone. pose proof (reportRows_length exec) as Hlen.
  rewrite Hnone in Hlen. cbn in Hlen.
  by destruct (reportRows exec); [| cbn in Hlen; lia].
Qed.

(** X13: the report has at most one row per failure and none when nothing
    failed; and when every failure is filed among the failed cases of its
    own package, every row shows at least one failed run. *)
Theorem report_rows_show_failures (exec : Execution) :
  (length (reportRows exec) ≤ length (FailedOf exec))%nat
  ∧ (FailedOf exec = [] → reportRows exec = [])
  ∧ ((∀ failure, failure ∈ FailedOf exec →
        failure ∈ Failed (PackageOf exec (tcPackage failure))) →
     ∀ row, row ∈ reportRows exec → (1 ≤ failed row.2)%Z).
Proof.
  split_and!.
  - apply reportRows_length.
  - apply reportRows_nil.
  - destruct (reportRows_rows exec) as (_ & _ & Hrows).
    intros Hfiled row Hr. destruct (Hrows row Hr) as (failure & Hin & _ & ->).
    unfold tallyOf, runsOf. cbn [failed].
    pose proof (Hfiled failure Hin) as Hown.
    assert (Hf : failure ∈ filter (λ tc, tcTest tc = tcTest failure)
                              (Failed (PackageOf exec (tcPackage failure))))
      by (by apply list_elem_of_filter).
    destruct (filter _ _); [by apply elem_of_nil in Hf | cbn; lia].
Qed.

(** X14: [writeRerunFailsReport] does nothing and returns nil when no rerun
    was asked for ([rerunFailsMaxAttempts] is 0) or no report file is named.
    Otherwise it returns the error of [os.Create], and nil when the file
    was created; it writes nothing when the creation failed or when nothing
    failed, so that the report of a run without failures is an empty
    file. *)
Theorem report_written_when_asked (opts : options) (exec : Execution) (w : W) :
  (rerunFailsMaxAttempts opts = 0%Z ∨ rerunFailsReportFile opts = "" →
   writeRerunFailsReport opts exec w = (None, w))
  ∧ (rerunFailsMaxAttempts opts ≠ 0%Z → rerunFailsReportFile opts ≠ "" →
     (writeRerunFailsReport opts exec w).1 = (Create (rerunFailsReportFile opts) w).1
     ∧ (is_Some (Create (rerunFailsReportFile opts) w).1 ∨ FailedOf exec = [] →
        (writeRerunFailsReport opts exec w).2
        = (Create (rerunFailsReportFile opts) w).2)).
Proof.
  unfold writeRerunFailsReport. split.
  - intros [Hmax | Hfile].
    + by rewrite (bool_decide_eq_true_2 _ Hmax).
    + rewrite (bool_decide_eq_true_2 _ Hfile). by rewrite orb_true_r.
  - intros Hmax Hfile. rewrite !bool_decide_eq_false_2 by done. cbn [orb].
    destruct (Create _ w) as [[err|] w']; cbn [fst snd]; [done |].
    split; [done |]. intros [[? ?] | Hnone]; [done |].
    by rewrite (reportRows_nil exec Hnone).
Qed.

End ReportMore.

(** The report of the execution in which [A] failed twice and passed once
    and [B] failed once: two rows for three failures, each with a failed
    run. *)
Lemma report_rows_show_failures_witness :
  length (reportRows (Double.execOf "p" ["A"; "B"; "A"] ["A"])) = 2%nat
  ∧ (1 ≤ failed (mkCounts 3 2))%Z.
Proof.
  split; [vm_compute; reflexivity |].
  destruct (report_rows_show_failures (Double.execOf "p" ["A"; "B"; "A"] ["A"]))
    as (_ & _ & Hfailed).
  refine (Hfailed _ ("p.A", mkCounts 3 2) _).
  - intros failure Hin.
    change (FailedOf (Double.execOf "p" ["A"; "B"; "A"] ["A"]))
      with [mkTestCase "p" "A"; mkTestCase "p" "B"; mkTestCase "p" "A"] in Hin.
    assert (Hp : tcPackage failure = "p").
    { pose proof Hin as Hin'.
      repeat (apply elem_of_cons in Hin' as [-> | Hin']); try done.
      by apply elem_of_nil in Hin'. }
    rewrite Hp. exact Hin.
  - vm_compute. apply list_elem_of_here.
Defined.

(** A report that was not asked for, and the report of a run without
    failures: the file is created and stays empty. *)
Lemma report_written_when_asked_witness :
  writeRerunFailsReport (mkOptions [] 0 false "report.txt")
    (Double.execOf "p" ["A"] []) (Double.mkWorld [] ∅ [] [] ∅)
  = (None, Double.mkWorld [] ∅ [] [] ∅)
  ∧ Double.textFiles
      (writeRerunFailsReport (mkOptions [] 2 false "report.txt")
         (Double.execOf "p" [] ["A"]) (Double.mkWorld [] ∅ [] [] ∅)).2
    = {[ "report.txt" := "" ]}.
Proof.
  destruct (report_written_when_asked (mkOptions [] 0 false "report.txt")
              (Double.execOf "p" ["A"] []) (Double.mkWorld [] ∅ [] [] ∅))
    as [Hoff _].
  destruct (report_written_when_asked (mkOptions [] 2 false "report.txt")
              (Double.execOf "p" [] ["A"]) (Double.mkWorld [] ∅ [] [] ∅))
    as [_ Hon].
  split; [apply Hoff; by left |].
  destruct (Hon ltac:(discriminate) ltac:(discriminate)) as [_ Hsame].
  rewrite Hsame; [reflexivity | right; reflexivity].
Defined.

(** *** A return from inside the loop skips the merge *)

Section NoMerge.

Context {W H : Type} (C : Collaborators W).
Variable combine : string → list Profile → W → option error * W.
Variable opts : options.
Variable handler : EventHandlerT H.

Lemma rerunCases_other_combine (attempts : Z) (tcs : list TestCase) :
  ∀ (i : nat) (nextRec : failureRecorder H) (st : state W H),
    rerunCases
      (Collaborators0 := withCoverageOps C (@ParseProfiles W C) (@Remove W C) combine)
      opts attempts i tcs nextRec st
    = rerunCases opts attempts i tcs nextRec st.
Proof.
  induction tcs as [|tc tcs IH]; intros i nextRec st; cbn [rerunCases]; [done |].
  change (rerunOne
            (Collaborators0 := withCoverageOps C (@ParseProfiles W C) (@Remove W C) combine)
            opts attempts i tc nextRec st)
    with (rerunOne opts attempts i tc nextRec st).
  destruct (crStop (rerunOne opts attempts i tc nextRec st)); [done |].
  by rewrite IH.
Qed.

Lemma rerunRounds_other_combine (fuel : nat) :
  ∀ (attempts : Z) (rec : failureRecorder H) (st : state W H),
    rerunRounds
      (Collaborators0 := withCoverageOps C (@ParseProfiles W C) (@Remove W C) combine)
      opts handler fuel attempts rec st
    = rerunRounds opts handler fuel attempts rec st.
Proof.
  induction fuel as [|fuel IH]; intros attempts rec st; cbn [rerunRounds]; [done |].
  destruct (bool_decide (0 < count rec)%nat
            && bool_decide (attempts < rerunFailsMaxAttempts opts)%Z); [| done].
  rewrite rerunCases_other_combine.
  destruct (csStop _) as [[ex err]|]; [done |].
  by rewrite IH.
Qed.

(** X15: when [rerunFailed] returns from inside the loop (a process that
    does not start, a failed scan, a profile that cannot be parsed or
    removed, an abort of the classifier), [Combine] is not called: the
    session is the same whatever [Combine] would do, and the profiles
    parsed so far stay in [rerunProfiles], unmerged. *)
Theorem return_in_loop_skips_the_merge (exec : Execution) (h : H) (w : W) :
  inLoopExit (sExit (rerunFailed opts handler exec h w)) = true →
  rerunFailed
    (Collaborators0 := withCoverageOps C (@ParseProfiles W C) (@Remove W C) combine)
    opts handler exec h w
  = rerunFailed opts handler exec h w
  ∧ rerunFailed opts handler exec h w = loopOf opts handler exec h w.
Proof.
  intros Hin.
  destruct (rerunFailed_loop opts handler exec h w) as (_ & _ & _ & Hex & _ & Hsame).
  assert (Hloop : inLoopExit (sExit (loopOf opts handler exec h w)) = true).
  { destruct Hex as [Hc | <-]; [by rewrite Hc in Hin | done]. }
  assert (Hne : sExit (loopOf opts handler exec h w) ≠ AtEnd).
  { intros Hend. by rewrite Hend in Hloop. }
  split; [| by apply Hsame].
  rewrite (Hsame Hne). unfold rerunFailed.
  rewrite rerunRounds_other_combine. fold (loopOf opts handler exec h w).
  by destruct (sExit (loopOf opts handler exec h w)).
Qed.

End NoMerge.

(** The session whose rerun profile cannot be removed: it ends the same
    with a [Combine] that would fail, and the parsed profile stays
    unmerged. *)
Lemma return_in_loop_skips_the_merge_witness :
  rerunFailed
    (Collaborators0 :=
       withCoverageOps Double.collaborators Double.parseProfiles Double.remove
         (λ _ _ w, (Some (Err "unwritable"), w)))
    Double.coverOpts Double.logHandler Double.coverExec [] Double.lockedWorld
  = rerunFailed Double.coverOpts Double.logHandler Double.coverExec []
      Double.lockedWorld.
Proof.
  assert (Hin : inLoopExit
                  (sExit (rerunFailed Double.coverOpts Double.logHandler
                            Double.coverExec [] Double.lockedWorld)) = true)
    by (vm_compute; reflexivity).
  exact (proj1 (return_in_loop_skips_the_merge Double.collaborators
                  (λ _ _ w, (Some (Err "unwritable"), w))
                  Double.coverOpts Double.logHandler Double.coverExec []
                  Double.lockedWorld Hin)).
Defined.
